(** * lsst::pex::exceptions::Exception: a traceback-carrying exception

    A shallow embedding of [src/Exception.cc].  The C++ methods act on
    objects through [this] pointers and on streams through references, so
    the embedding threads a [machine] (object store, stream store and the
    function-local static buffer of [what]) through a small
    state-and-exception monad; a [catch (...)] is a handler of that monad. *)

From Stdlib Require Import Ascii.
From stdpp Require Import gmap strings list fin_maps pretty.

Local Open Scope Z_scope.
Local Open Scope nat_scope.

(** ** Strings *)

Module Str.

(** The first [n] characters of a string, and the rest. *)
Fixpoint take (n : nat) (s : string) : string :=
  match n, s with
  | S n', String c s' => String c (take n' s')
  | _, _ => ""
  end.

Fixpoint drop (n : nat) (s : string) : string :=
  match n, s with
  | S n', String c s' => drop n' s'
  | _, _ => s
  end.

(** The characters before the first NUL: what a [char const*] to the
    string's characters shows when read as a C string. *)
Fixpoint until_nul (s : string) : string :=
  match s with
  | EmptyString => ""
  | String c s' => if decide (c = "000"%char) then "" else String c (until_nul s')
  end.

(** Whether a NUL character occurs. *)
Fixpoint has_nul (s : string) : bool :=
  match s with
  | EmptyString => false
  | String c s' => if decide (c = "000"%char) then true else has_nul s'
  end.

(** Concatenation of a list of pieces, in order. *)
Fixpoint cat (xs : list string) : string :=
  match xs with
  | [] => ""
  | x :: xs' => x +:+ cat xs'
  end.

End Str.

(** ** Data model *)

(** Modelled from the spec: the [Tracepoint] struct is declared in
    [Exception.h], which is not among the sources.  Its four members are the
    ones [addToStream] reads ([_file], [_line], [_func], [_msg]); [_file] and
    [_func] are [char const*], [_line] is an [int], [_msg] a [std::string]. *)
Record Tracepoint := mkTracepoint {
  _file : string;
  _line : Z;
  _func : string;
  _msg : string
}.

(** Modelled from the spec: the constructor [Tracepoint(file, line, func,
    message)] is defined with the struct in [Exception.h]; it stores its four
    arguments ("an immutable record with four fields ... built from the four
    provenance arguments"). *)
Definition Tracepoint_ctor (file : string) (line : Z) (func message : string)
  : Tracepoint :=
  {| _file := file; _line := line; _func := func; _msg := message |}.

(** [typedef std::vector<Tracepoint> Traceback]. *)
Abbreviation Traceback := (list Tracepoint).

(** The data members of [Exception]: [char const* _type] and
    [Traceback _traceback]. *)
Record Exception := mkException {
  _type : string;
  _traceback : Traceback
}.

(** [std::vector::push_back]. *)
Definition push_back (v : Traceback) (tp : Tracepoint) : Traceback := v ++ [tp].

(** ** Output streams

    A [std::ostream] as far as [addToStream] can observe it: the characters
    its sink has accepted, how many more the sink accepts ([None]: no limit),
    the error state of the stream, and whether its [exceptions()] mask makes
    a failure raise [std::ios_base::failure] (the mask either holds both
    [badbit] and [failbit] or neither).  Formatting flags are the defaults
    (decimal, no padding, no [unitbuf]) and [sync] succeeds. *)

(** [rdstate()], as far as an insertion tells its values apart: no bit set;
    [failbit] or [eofbit] set but not [badbit]; [badbit] set, with or without
    the others. *)
Inductive iostate := is_good | is_failed | is_bad.

Record ostream := mkOstream {
  text : string;
  room : option nat;
  state : iostate;
  exceptions : bool
}.

(** [!good()]. *)
Definition failed (s : ostream) : bool :=
  match state s with
  | is_good => false
  | _ => true
  end.

Inductive exn := ios_failure | bad_alloc.

(** What one formatted insertion does to the stream object, and whether it
    raises.  The sentry of a stream that is not good refuses the insertion,
    so nothing is written; only when [badbit] is set does it call
    [setstate(failbit)], which raises when the mask says so.  On a good
    stream, a sink that runs out of room keeps the characters that still fit
    and the insertion calls [setstate(badbit)], which raises when the mask
    says so. *)
Definition put (x : string) (s : ostream) : ostream * option exn :=
  let raise := if exceptions s then Some ios_failure else None in
  match state s with
  | is_bad => (s, raise)
  | is_failed => (s, None)
  | is_good =>
      match room s with
      | None =>
          ({| text := text s +:+ x; room := None;
              state := is_good; exceptions := exceptions s |}, None)
      | Some n =>
          if decide (String.length x ≤ n)
          then ({| text := text s +:+ x; room := Some (n - String.length x);
                   state := is_good; exceptions := exceptions s |}, None)
          else ({| text := text s +:+ Str.take n x; room := Some 0;
                   state := is_bad; exceptions := exceptions s |}, raise)
      end
  end.

(** The object that [std::ostringstream s;] declares: empty, in a good state,
    with an empty [exceptions()] mask; [cap] is how far its buffer can grow. *)
Definition ostringstream_ctor (cap : option nat) : ostream :=
  {| text := ""; room := cap; state := is_good; exceptions := false |}.

(** ** The machine *)

(** Addresses of [Exception] objects and of stream objects. *)
Abbreviation loc := nat (only parsing).
Abbreviation sref := nat (only parsing).

Record machine := mkMachine {
  objects : gmap loc Exception;
  streams : gmap sref ostream;
  buffer : string        (* [static std::string buffer] of [what] *)
}.

Definition set_objects (f : gmap loc Exception → gmap loc Exception)
    (m : machine) : machine :=
  {| objects := f (objects m); streams := streams m; buffer := buffer m |}.
Definition set_streams (f : gmap sref ostream → gmap sref ostream)
    (m : machine) : machine :=
  {| objects := objects m; streams := f (streams m); buffer := buffer m |}.
Definition set_buffer (b : string) (m : machine) : machine :=
  {| objects := objects m; streams := streams m; buffer := b |}.

(** How a call ends: it returns, it leaves by an exception, or it has no
    defined behaviour (a pointer or reference to no object, an index past the
    end of a vector). *)
Inductive outcome (A : Type) :=
  | Ok (a : A)
  | Throw (x : exn)
  | Undef.
Arguments Ok {A} a.
Arguments Throw {A} x.
Arguments Undef {A}.

Definition M (A : Type) : Type := machine → machine * outcome A.

#[global] Instance M_ret : MRet M := λ A a m, (m, Ok a).
#[global] Instance M_bind : MBind M := λ A B f c m,
  match c m with
  | (m', Ok a) => f a m'
  | (m', Throw x) => (m', Throw x)
  | (m', Undef) => (m', Undef)
  end.

(** Two computations are equivalent when they agree on every machine. *)
#[global] Instance M_equiv {A} : Equiv (M A) := λ c c', ∀ m, c m = c' m.

(** [try { body } catch (...) { handler }]. *)
Definition try_catch {A} (body : M A) (handler : M A) : M A := λ m,
  match body m with
  | (m', Throw _) => handler m'
  | r => r
  end.

(** [*p] for a pointer to an [Exception]. *)
Definition deref (p : loc) : M Exception := λ m,
  match objects m !! p with
  | Some e => (m, Ok e)
  | None => (m, Undef)
  end.

(** Writing the members of the object at [p]. *)
Definition store (p : loc) (e : Exception) : M unit := λ m,
  (set_objects <[p := e]> m, Ok ()).

(** [v[i]], the unchecked [std::vector::operator[]]. *)
Definition at_ (v : Traceback) (i : nat) : M Tracepoint := λ m,
  match v !! i with
  | Some tp => (m, Ok tp)
  | None => (m, Undef)
  end.

(** One insertion of the characters [x] into the stream that [stream]
    refers to; it evaluates to the same reference. *)
Definition insert_text (stream : sref) (x : string) : M sref := λ m,
  match streams m !! stream with
  | None => (m, Undef)
  | Some s =>
      let '(s', r) := put x s in
      (set_streams <[stream := s']> m,
       match r with None => Ok stream | Some x => Throw x end)
  end.

(** The overloads of [operator<<] the code uses, by operand type. *)
Class Insertable (A : Type) := formatted : A → string.

Inductive manipulator := endl.

Definition newline : string := String "010"%char "".

#[global] Instance insertable_cstr : Insertable string := λ x, x.
#[global] Instance insertable_int : Insertable Z := λ x, pretty x.
#[global] Instance insertable_size_t : Insertable nat := λ x, pretty x.
#[global] Instance insertable_manip : Insertable manipulator := λ _, newline.

Definition shl `{Insertable A} (c : M sref) (x : A) : M sref :=
  stream ← c; insert_text stream (formatted x).

Declare Scope cpp_scope.
Delimit Scope cpp_scope with cpp.
Infix "<<" := shl (at level 50, left associativity) : cpp_scope.
Local Open Scope cpp_scope.

(** [n] iterations of a loop body whose counter starts at [i] and is
    incremented after each. *)
Fixpoint for_from (i n : nat) (body : nat → M unit) : M unit :=
  match n with
  | 0 => mret ()
  | S n' => body i;; for_from (S i) n' body
  end.

(** [for (size_t i = lo; i < hi; ++i) body]. *)
Definition for_range (lo hi : nat) (body : nat → M unit) : M unit :=
  for_from lo (hi - lo) body.

(** ** The methods of [Exception] *)

(** [Exception::Exception(type, file, line, func, message)], run on the
    storage at [this]: [_type(type)], an empty [_traceback], then one
    [push_back]. *)
Definition Exception_ctor (this : loc) (type file : string) (line : Z)
    (func message : string) : M unit :=
  store this
    {| _type := type;
       _traceback := push_back [] (Tracepoint_ctor file line func message) |}.

(** [Exception::addMessage]. *)
Definition addMessage (this : loc) (file : string) (line : Z)
    (func message : string) : M unit :=
  e ← deref this;
  store this
    {| _type := _type e;
       _traceback :=
         push_back (_traceback e) (Tracepoint_ctor file line func message) |}.

(** [Exception::getTraceback]. *)
Definition getTraceback (this : loc) : M Traceback :=
  e ← deref this; mret (_traceback e).

(** [Exception::addToStream]. *)
Definition addToStream (this : loc) (stream : sref) : M sref :=
  e ← deref this;
  let tb := _traceback e in
  (if decide (0 < length tb) then
     tp0 ← at_ tb 0;
     (mret stream << "0: " << _type e << " thrown at "
        << _file tp0 << ":" << _line tp0 << " in "
        << _func tp0 << endl);;
     (mret stream << "0: Message: " << _msg tp0 << endl);;
     for_range 1 (length tb) (λ i,
       tp ← at_ tb i;
       (mret stream << i << ": Rethrown at "
          << _file tp << ":" << _line tp << " in "
          << _func tp << endl);;
       (mret stream << i << ": Message: " << _msg tp << endl);;
       mret ())
   else mret ());;
  mret stream.

(** [Exception::getType]. *)
Definition getType (this : loc) : M string :=
  e ← deref this; mret (_type e).

(** [Exception::ctype]. *)
Definition ctype (this : loc) : M string :=
  mret "lsst::pex::exceptions::Exception *".

(** [new]: the address of storage that holds no object yet. *)
Definition new_ : M loc := λ m, (m, Ok (fresh (dom (objects m)))).

(** The implicit copy constructor [Exception(Exception const&)], run on the
    storage at [this]: each member is copied from [src]. *)
Definition Exception_copy_ctor (this : loc) (src : Exception) : M unit :=
  store this {| _type := _type src; _traceback := _traceback src |}.

(** [Exception::clone]. *)
Definition clone (this : loc) : M loc :=
  e ← deref this;
  p ← new_;
  Exception_copy_ctor p e;;
  mret p.

(** [operator<<(std::ostream&, Exception const&)]. *)
Definition operator_shl (stream : sref) (e : loc) : M sref :=
  addToStream e stream.

(** What the C++ runtime does while [what] runs: how far the buffer of the
    local string stream can grow, and whether the copy that [s.str()] makes
    can be allocated ([false]: it raises [std::bad_alloc]). *)
Record runtime := mkRuntime {
  sstream_cap : option nat;
  str_copies : bool
}.

(** A block with the local [std::ostringstream s;]: the stream is constructed
    at an unused address and destroyed when the block is left, by a return or
    by an exception. *)
Definition with_ostringstream {A} (rt : runtime) (block : sref → M A) : M A :=
  λ m,
  let s := fresh (dom (streams m)) in
  let '(m', o) :=
    block s (set_streams <[s := ostringstream_ctor (sstream_cap rt)]> m) in
  (set_streams (delete s) m', o).

(** [s.str()]: a copy of the characters the string stream holds. *)
Definition str (rt : runtime) (s : sref) : M string := λ m,
  match streams m !! s with
  | None => (m, Undef)
  | Some o => (m, if str_copies rt then Ok (text o) else Throw bad_alloc)
  end.

(** [buffer = t]. *)
Definition assign_buffer (t : string) : M unit := λ m, (set_buffer t m, Ok ()).

(** The [char const*] that [what] returns: [buffer.c_str()] as it is when
    the call returns, or [_type].  A [buffer_c_str] is good until the buffer
    is next assigned; it is only ever read in the machine that the call which
    returned it left. *)
Inductive char_ptr :=
  | buffer_c_str
  | type_name (k : string).

(** The C string a returned pointer shows in the machine the call left: the
    characters of the buffer up to its first NUL, or the characters of
    [_type] (a [char const*] member holds the characters before its
    terminating NUL). *)
Definition c_string (m : machine) (p : char_ptr) : string :=
  match p with
  | buffer_c_str => Str.until_nul (buffer m)
  | type_name k => k
  end.

(** The [try] block of [Exception::what]. *)
Definition what_try (rt : runtime) (this : loc) : M char_ptr :=
  with_ostringstream rt (λ s,
    addToStream this s;;
    t ← str rt s;
    assign_buffer t;;
    mret buffer_c_str).

(** The [catch (...)] block of [Exception::what]. *)
Definition what_catch (this : loc) : M char_ptr :=
  e ← deref this; mret (type_name (_type e)).

(** [Exception::what]. *)
Definition what (rt : runtime) (this : loc) : M char_ptr :=
  try_catch (what_try rt this) (what_catch this).

(** ** Sequences of calls *)

(** The arguments of one [addMessage] call. *)
Record context := mkContext {
  ctx_file : string;
  ctx_line : Z;
  ctx_func : string;
  ctx_msg : string
}.

Definition context_tracepoint (c : context) : Tracepoint :=
  Tracepoint_ctor (ctx_file c) (ctx_line c) (ctx_func c) (ctx_msg c).

(** [addMessage] called once per element of [cs], in order. *)
Fixpoint addMessages (this : loc) (cs : list context) : M unit :=
  match cs with
  | [] => mret ()
  | c :: cs' =>
      addMessage this (ctx_file c) (ctx_line c) (ctx_func c) (ctx_msg c);;
      addMessages this cs'
  end.

(** A call of one of the public operations, on any object and stream. *)
Inductive call :=
  | call_addMessage (this : loc) (c : context)
  | call_getTraceback (this : loc)
  | call_addToStream (this : loc) (stream : sref)
  | call_what (rt : runtime) (this : loc)
  | call_getType (this : loc)
  | call_ctype (this : loc)
  | call_clone (this : loc)
  | call_shl (stream : sref) (e : loc).

Definition run_call (c : call) : M unit :=
  match c with
  | call_addMessage this c =>
      addMessage this (ctx_file c) (ctx_line c) (ctx_func c) (ctx_msg c)
  | call_getTraceback this => getTraceback this;; mret ()
  | call_addToStream this stream => addToStream this stream;; mret ()
  | call_what rt this => what rt this;; mret ()
  | call_getType this => getType this;; mret ()
  | call_ctype this => ctype this;; mret ()
  | call_clone this => clone this;; mret ()
  | call_shl stream e => operator_shl stream e;; mret ()
  end.

(** ** The report, as the specification words it *)

(** The two lines of entry [i]: entry 0 reads
    "0: <kind> thrown at <file>:<line> in <func>" then "0: Message: <message>",
    entry [i > 0] reads "i: Rethrown at <file>:<line> in <func>" then
    "i: Message: <message>", each line ended by a newline. *)
Definition report_entry (kind : string) (i : nat) (tp : Tracepoint) : string :=
  match i with
  | 0 =>
      ("0: " +:+ kind +:+ " thrown at " +:+ _file tp +:+ ":"
         +:+ pretty (_line tp) +:+ " in " +:+ _func tp +:+ newline)
      +:+ ("0: Message: " +:+ _msg tp +:+ newline)
  | S _ =>
      (pretty i +:+ ": Rethrown at " +:+ _file tp +:+ ":"
         +:+ pretty (_line tp) +:+ " in " +:+ _func tp +:+ newline)
      +:+ (pretty i +:+ ": Message: " +:+ _msg tp +:+ newline)
  end.

(** The entries of the traceback in order, two lines each. *)
Definition report (kind : string) (tb : Traceback) : string :=
  Str.cat (imap (report_entry kind) tb).

(** Whether the sink of [s] still accepts [n] characters. *)
Definition accepts (s : ostream) (n : nat) : Prop :=
  match room s with
  | None => True
  | Some k => n ≤ k
  end.

(** The stream [s] after its sink accepted all of [x]. *)
Definition written (s : ostream) (x : string) : ostream :=
  {| text := text s +:+ x;
     room := (λ k, k - String.length x) <$> room s;
     state := state s;
     exceptions := exceptions s |}.

(** ** The insertions [addToStream] performs *)

(** The operands of the two statements for entry 0, formatted. *)
Definition thrown_chunks (type : string) (tp : Tracepoint) : list string :=
  ["0: "; type; " thrown at "; _file tp; ":"; pretty (_line tp); " in ";
   _func tp; newline;
   "0: Message: "; _msg tp; newline].

(** The operands of the two statements of the loop body at index [i]. *)
Definition rethrown_chunks (i : nat) (tp : Tracepoint) : list string :=
  [pretty i; ": Rethrown at "; _file tp; ":"; pretty (_line tp); " in ";
   _func tp; newline;
   pretty i; ": Message: "; _msg tp; newline].

(** The operands of the iterations for the entries [l], the first of which
    has index [i]. *)
Fixpoint loop_chunks (i : nat) (l : Traceback) : list string :=
  match l with
  | [] => []
  | tp :: l' => rethrown_chunks i tp ++ loop_chunks (S i) l'
  end.

Definition chunks (e : Exception) : list string :=
  match _traceback e with
  | [] => []
  | tp0 :: rest => thrown_chunks (_type e) tp0 ++ loop_chunks 1 rest
  end.

(** A run of insertions on a stream object; it stops at the first that
    raises. *)
Fixpoint puts (xs : list string) (s : ostream) : ostream * option exn :=
  match xs with
  | [] => (s, None)
  | x :: xs' =>
      match put x s with
      | (s', None) => puts xs' s'
      | r => r
      end
  end.

(** The same run through a reference. *)
Fixpoint emit (stream : sref) (xs : list string) : M sref :=
  match xs with
  | [] => mret stream
  | x :: xs' => insert_text stream x;; emit stream xs'
  end.

(** The characters the local string stream of [what] holds after
    [addToStream] wrote to it. *)
Definition rendered (rt : runtime) (e : Exception) : string :=
  text (puts (chunks e) (ostringstream_ctor (sstream_cap rt))).1.

(** The machine after the calls [cs] were made one after the other, whatever
    way each of them ended. *)
Definition after (cs : list call) (m : machine) : machine :=
  foldl (λ m c, (run_call c m).1) m cs.

(** Every object of [m] is still there in [m'], with the type it had and a
    traceback that is the one it had followed by further entries. *)
Definition grows (m m' : machine) : Prop :=
  ∀ p e, objects m !! p = Some e →
    ∃ suffix,
      objects m' !! p =
      Some {| _type := _type e; _traceback := _traceback e ++ suffix |}.

(** However [c] ends, the machine it leaves is related by [R] to the one it
    started from. *)
Definition preserves (R : relation machine) {A} (c : M A) : Prop :=
  ∀ m, R m (c m).1.

(** A stream that raises on failure, on a sink that accepts four more
    characters, and an Exception to write to it. *)
Definition full_sink : ostream :=
  {| text := ""; room := Some 4; state := is_good; exceptions := true |}.

Definition boom : Exception :=
  {| _type := "E"; _traceback := [Tracepoint_ctor "a.cc" 10 "f" "boom"] |}.

Definition full_sink_machine : machine :=
  {| objects := {[ 1 := boom ]}; streams := {[ 7 := full_sink ]};
     buffer := "" |}.

(** An in-memory stream with nothing written yet, and the same Exception. *)
Definition memory_machine : machine :=
  {| objects := {[ 1 := boom ]}; streams := {[ 7 := ostringstream_ctor None ]};
     buffer := "" |}.

(** An Exception object whose traceback is empty, as no constructor of this
    class leaves it. *)
Definition hollow : Exception := {| _type := "E"; _traceback := [] |}.

Definition hollow_machine : machine :=
  {| objects := {[ 1 := hollow ]}; streams := {[ 7 := full_sink ]};
     buffer := "" |}.

(** A runtime in which [s.str()] gets its copy, and one in which it does
    not. *)
Definition plenty : runtime := {| sstream_cap := None; str_copies := true |}.
Definition exhausted : runtime := {| sstream_cap := None; str_copies := false |}.

(** The number of newline characters in a string. *)
Fixpoint newlines (s : string) : nat :=
  match s with
  | EmptyString => 0
  | String c s' => (if decide (c = "010"%char) then 1 else 0) + newlines s'
  end.

(** A tracepoint whose file name, function name and message hold no
    newline. *)
Definition one_line (tp : Tracepoint) : Prop :=
  newlines (_file tp) = 0 ∧ newlines (_func tp) = 0 ∧ newlines (_msg tp) = 0.

(** A second Exception, rethrown once, beside the first, and an in-memory
    stream. *)
Definition crash : Exception :=
  {| _type := "IoError";
     _traceback := [Tracepoint_ctor "io.cc" 42 "read" "no such file";
                    Tracepoint_ctor "main.cc" 7 "run" ""] |}.

Definition pair_machine : machine :=
  {| objects := {[ 1 := boom; 2 := crash ]};
     streams := {[ 7 := ostringstream_ctor None ]};
     buffer := "" |}.

(** A stream whose [badbit] was set earlier and which raises on failure. *)
Definition failed_stream : ostream :=
  {| text := "x"; room := None; state := is_bad; exceptions := true |}.

Definition failed_machine : machine :=
  {| objects := {[ 1 := boom ]}; streams := {[ 7 := failed_stream ]};
     buffer := "" |}.

(** The part of a text that a buffer able to grow to [cap] characters
    holds. *)
Definition fitted (cap : option nat) (x : string) : string :=
  match cap with
  | None => x
  | Some n => Str.take n x
  end.

(** A tracepoint whose file name, function name and message hold no NUL. *)
Definition nul_free (tp : Tracepoint) : Prop :=
  Str.has_nul (_file tp) = false ∧ Str.has_nul (_func tp) = false ∧
  Str.has_nul (_msg tp) = false.

(** An Exception whose message holds a NUL between an "a" and a "b". *)
Definition split_message : string :=
  String "a"%char (String "000"%char (String "b"%char "")).

Definition split : Exception :=
  {| _type := "E";
     _traceback := [Tracepoint_ctor "a.cc" 10 "f" split_message] |}.

Definition split_machine : machine :=
  {| objects := {[ 1 := split ]}; streams := ∅; buffer := "" |}.

(** A runtime in which the string stream of [what] cannot grow past fifteen
    characters. *)
Definition cramped : runtime := {| sstream_cap := Some 15; str_copies := true |}.

(** A stream failed by [failbit] alone, which raises on failure. *)
Definition soft_failed_stream : ostream :=
  {| text := "x"; room := None; state := is_failed; exceptions := true |}.

Definition soft_failed_machine : machine :=
  {| objects := {[ 1 := boom ]}; streams := {[ 7 := soft_failed_stream ]};
     buffer := "" |}.

(** * Properties *)

Create HintDb preserves discriminated.

(** ** Strings *)

Module StrFacts.

Lemma app_cons (c : ascii) (s t : string) :
  String c s +:+ t = String c (s +:+ t).
Proof. reflexivity. Qed.

Lemma app_nil_r (s : string) : s +:+ "" = s.
Proof. induction s as [|c s IH]; [done|]. by rewrite app_cons, IH. Qed.

Lemma app_assoc (s t u : string) : (s +:+ t) +:+ u = s +:+ t +:+ u.
Proof. induction s as [|c s IH]; [done|]. by rewrite !app_cons, IH. Qed.

Lemma length_app (s t : string) :
  String.length (s +:+ t) = String.length s + String.length t.
Proof.
  induction s as [|c s IH]; [done|]. rewrite app_cons. cbn. by rewrite IH.
Qed.

Lemma take_drop (n : nat) (s : string) : Str.take n s +:+ Str.drop n s = s.
Proof.
  revert s. induction n as [|n IH]; intros [|c s]; try done.
  cbn. by rewrite app_cons, IH.
Qed.

Lemma cat_app (xs ys : list string) :
  Str.cat (xs ++ ys) = Str.cat xs +:+ Str.cat ys.
Proof.
  induction xs as [|x xs IH]; [done|]. cbn. by rewrite IH, app_assoc.
Qed.

End StrFacts.



(** ** Single insertions *)

Section put_facts.
Context (x : string) (s : ostream).

Lemma failed_false : failed s = false ↔ state s = is_good.
Proof. unfold failed. by destruct (state s). Qed.

Lemma put_exceptions : exceptions (put x s).1 = exceptions s.
Proof.
  unfold put. destruct (state s); [|done..].
  destruct (room s); [case_decide|]; done.
Qed.

Lemma put_quiet : exceptions s = false → (put x s).2 = None.
Proof.
  intros Hq. unfold put. rewrite Hq. destruct (state s); [|done..].
  destruct (room s); [case_decide|]; done.
Qed.

Lemma put_accepted :
  failed s = false → accepts s (String.length x) →
  put x s = (written s x, None).
Proof.
  unfold put, accepts, written. intros ->%failed_false Hfit.
  destruct (room s) as [k|]; [|done]. cbn. by rewrite decide_True.
Qed.
End put_facts.

Lemma written_nil (s : ostream) : written s "" = s.
Proof.
  destruct s as [t r f x]. unfold written. cbn. rewrite StrFacts.app_nil_r.
  f_equal. destruct r as [k|]; [|done]. cbn. f_equal. lia.
Qed.

Lemma written_app (s : ostream) (x y : string) :
  written (written s x) y = written s (x +:+ y).
Proof.
  unfold written. cbn. rewrite StrFacts.app_assoc. f_equal.
  destruct (room s) as [k|]; [|done]. cbn. rewrite StrFacts.length_app.
  f_equal. lia.
Qed.

Lemma accepts_written (s : ostream) (x : string) (n : nat) :
  accepts s (String.length x + n) → accepts (written s x) n.
Proof.
  unfold accepts, written. cbn. destruct (room s) as [k|]; [|done]. cbn. lia.
Qed.

Lemma accepts_le (s : ostream) (n k : nat) : k ≤ n → accepts s n → accepts s k.
Proof. unfold accepts. destruct (room s); [lia|done]. Qed.

(** ** Runs of insertions *)

Lemma puts_app (xs ys : list string) (s : ostream) :
  puts (xs ++ ys) s =
  match puts xs s with
  | (s', None) => puts ys s'
  | r => r
  end.
Proof.
  revert s. induction xs as [|x xs IH]; intros s; [done|]. cbn.
  destruct (put x s) as [s' [err|]]; [done|]. apply IH.
Qed.

Lemma puts_exceptions (xs : list string) (s : ostream) :
  exceptions (puts xs s).1 = exceptions s.
Proof.
  revert s. induction xs as [|x xs IH]; intros s; [done|]. cbn.
  pose proof (put_exceptions x s) as Hx.
  destruct (put x s) as [s' [err|]]; [done|]. cbn in Hx. by rewrite IH.
Qed.

Lemma puts_quiet (xs : list string) (s : ostream) :
  exceptions s = false → (puts xs s).2 = None.
Proof.
  revert s. induction xs as [|x xs IH]; intros s Hq; [done|]. cbn.
  pose proof (put_quiet x s Hq) as Hn. pose proof (put_exceptions x s) as Hx.
  destruct (put x s) as [s' [err|]]; [done|]. cbn in Hx.
  apply IH. congruence.
Qed.

Lemma puts_accepted (xs : list string) (s : ostream) :
  failed s = false → accepts s (String.length (Str.cat xs)) →
  puts xs s = (written s (Str.cat xs), None).
Proof.
  revert s. induction xs as [|x xs IH]; intros s Hgood Hfit; cbn.
  - by rewrite written_nil.
  - cbn in Hfit. rewrite StrFacts.length_app in Hfit.
    rewrite put_accepted; [|done|by eapply accepts_le; [|done]; lia].
    rewrite IH; [by rewrite written_app|done|by apply accepts_written].
Qed.

(** ** Equations between computations *)

#[global] Instance M_equivalence {A} : Equivalence (≡@{M A}).
Proof.
  split.
  - by intros c m.
  - intros c c' H m. by rewrite H.
  - intros c1 c2 c3 H12 H23 m. by rewrite H12.
Qed.

#[global] Instance mbind_proper {A B} :
  Proper (pointwise_relation A (≡) ==> (≡) ==> (≡))
    (mbind (M := M) (A := A) (B := B)).
Proof.
  intros f g Hfg c c' Hc m. unfold mbind, M_bind. rewrite Hc.
  destruct (c' m) as [m' [a| |]]; [apply Hfg|done..].
Qed.

#[global] Instance shl_proper `{Insertable A} :
  Proper ((≡) ==> (=) ==> (≡)) (shl (A := A)).
Proof. intros c c' Hc x ? <-. unfold shl. by rewrite Hc. Qed.

Section monad_laws.
Context {A B C : Type}.

Lemma ret_bind (a : A) (f : A → M B) : mret a ≫= f ≡ f a.
Proof. by intros m. Qed.

Lemma bind_ret (c : M A) : c ≫= mret ≡ c.
Proof.
  intros m. unfold mbind, M_bind. by destruct (c m) as [m' [a| |]].
Qed.

Lemma bind_assoc (c : M A) (f : A → M B) (g : B → M C) :
  (c ≫= f) ≫= g ≡ c ≫= (λ a, f a ≫= g).
Proof.
  intros m. unfold mbind, M_bind. by destruct (c m) as [m' [a| |]].
Qed.
End monad_laws.

(** ** Insertions through a reference *)

Lemma at_ok {B} (v : Traceback) (i : nat) (tp : Tracepoint) (f : Tracepoint → M B) :
  v !! i = Some tp → at_ v i ≫= f ≡ f tp.
Proof. intros Hi m. unfold mbind, M_bind, at_. by rewrite Hi. Qed.

Lemma insert_text_val {B} (stream : sref) (x : string) (f : sref → M B) :
  insert_text stream x ≫= f ≡ (insert_text stream x;; f stream).
Proof.
  intros m. unfold mbind, M_bind, insert_text.
  destruct (streams m !! stream) as [s|]; [|done].
  by destruct (put x s) as [s' [err|]].
Qed.

Lemma emit_val {B} (stream : sref) (xs : list string) (f : sref → M B) :
  emit stream xs ≫= f ≡ (emit stream xs;; f stream).
Proof.
  induction xs as [|x xs IH]; cbn [emit].
  - by rewrite !ret_bind.
  - rewrite !bind_assoc. by setoid_rewrite IH.
Qed.

Lemma emit_app (stream : sref) (xs ys : list string) :
  emit stream (xs ++ ys) ≡ (emit stream xs;; emit stream ys).
Proof.
  induction xs as [|x xs IH]; cbn [emit app].
  - by rewrite ret_bind.
  - rewrite bind_assoc. by setoid_rewrite IH.
Qed.

Lemma emit_ret (stream : sref) (xs : list string) :
  (emit stream xs;; mret stream) ≡ emit stream xs.
Proof. by rewrite <- emit_val, bind_ret. Qed.

Lemma emit_singleton (stream : sref) (x : string) :
  emit stream [x] ≡ insert_text stream x.
Proof. cbn [emit]. by rewrite <- insert_text_val, bind_ret. Qed.

(** A chain [c << x] continues the run that [c] performs; the operands are
    collected last first. *)
Lemma shl_emit `{Insertable A} (c : M sref) (stream : sref)
    (rxs : list string) (x : A) :
  c ≡ emit stream (rev rxs) →
  c << x ≡ emit stream (rev (formatted x :: rxs)).
Proof.
  intros Hc. unfold shl. rewrite Hc, emit_val. cbn [rev].
  rewrite emit_app. by setoid_rewrite emit_singleton.
Qed.

Lemma ret_emit (stream : sref) : mret stream ≡ emit stream (rev []).
Proof. done. Qed.

Ltac chain := repeat (apply shl_emit); apply ret_emit.

Lemma emit_puts (stream : sref) (xs : list string) (m : machine) (s : ostream) :
  streams m !! stream = Some s →
  emit stream xs m =
  (set_streams <[stream := (puts xs s).1]> m,
   match (puts xs s).2 with None => Ok stream | Some x => Throw x end).
Proof.
  revert m s. induction xs as [|x xs IH]; intros m s Hs; cbn.
  - unfold mret, M_ret. f_equal. destruct m as [o st b].
    unfold set_streams. cbn in *. by rewrite insert_id.
  - unfold mbind, M_bind, insert_text. rewrite Hs.
    destruct (put x s) as [s' [err|]]; [done|].
    erewrite IH by (cbn; apply lookup_insert_eq).
    destruct m as [o st b]. unfold set_streams. cbn.
    by rewrite insert_insert_eq.
Qed.

(** ** [addToStream] as a run of insertions *)

Lemma thrown_statements (stream : sref) (type : string) (tp : Tracepoint) :
  ((mret stream << "0: " << type << " thrown at "
      << _file tp << ":" << _line tp << " in " << _func tp << endl);;
   (mret stream << "0: Message: " << _msg tp << endl))
  ≡ emit stream (thrown_chunks type tp).
Proof.
  change (thrown_chunks type tp) with
    (rev [formatted endl; formatted (_func tp); formatted " in ";
          formatted (_line tp); formatted ":"; formatted (_file tp);
          formatted " thrown at "; formatted type; formatted "0: "]
     ++ rev [formatted endl; formatted (_msg tp); formatted "0: Message: "]).
  rewrite emit_app. apply mbind_proper; [intros _|]; chain.
Qed.

Lemma rethrown_statements (stream : sref) (i : nat) (tp : Tracepoint) :
  ((mret stream << i << ": Rethrown at "
      << _file tp << ":" << _line tp << " in " << _func tp << endl);;
   (mret stream << i << ": Message: " << _msg tp << endl))
  ≡ emit stream (rethrown_chunks i tp).
Proof.
  change (rethrown_chunks i tp) with
    (rev [formatted endl; formatted (_func tp); formatted " in ";
          formatted (_line tp); formatted ":"; formatted (_file tp);
          formatted ": Rethrown at "; formatted i]
     ++ rev [formatted endl; formatted (_msg tp); formatted ": Message: ";
             formatted i]).
  rewrite emit_app. apply mbind_proper; [intros _|]; chain.
Qed.

Lemma loop_emit (stream : sref) (tb l : Traceback) (i : nat) :
  (∀ k tp, l !! k = Some tp → tb !! (i + k) = Some tp) →
  for_from i (length l) (λ i,
    tp ← at_ tb i;
    (mret stream << i << ": Rethrown at "
       << _file tp << ":" << _line tp << " in " << _func tp << endl);;
    (mret stream << i << ": Message: " << _msg tp << endl);;
    mret ())
  ≡ (emit stream (loop_chunks i l);; mret ()).
Proof.
  match goal with |- _ → for_from _ _ ?body ≡ _ => set (b := body) end.
  revert i. induction l as [|tp l IH]; intros i Hl;
    cbn [for_from length loop_chunks].
  - cbn [emit]. by rewrite ret_bind.
  - assert (for_from (S i) (length l) b
            ≡ (emit stream (loop_chunks (S i) l);; mret ())) as Hrec.
    { apply IH. intros k tp' Hk.
      replace (S i + k) with (i + S k) by lia. by apply Hl. }
    assert (b i ≡ (emit stream (rethrown_chunks i tp);; mret ())) as Hb.
    { unfold b. rewrite at_ok with (tp := tp).
      - by rewrite <- rethrown_statements, bind_assoc.
      - rewrite <- (Nat.add_0_r i). by apply Hl. }
    setoid_rewrite Hrec. setoid_rewrite Hb.
    rewrite emit_app, !bind_assoc. by setoid_rewrite ret_bind.
Qed.

Lemma addToStream_emit (this : loc) (stream : sref) (m : machine) (e : Exception) :
  objects m !! this = Some e →
  addToStream this stream m = emit stream (chunks e) m.
Proof.
  intros He. unfold addToStream, mbind at 1, M_bind at 1, deref. rewrite He.
  unfold chunks. destruct (_traceback e) as [|tp0 rest] eqn:Htb.
  - done.
  - rewrite decide_True by (cbn; lia).
    clear He. revert m.
    match goal with |- ∀ m, ?c m = ?d m => change (c ≡ d) end.
    rewrite at_ok with (tp := tp0) by done.
    unfold for_range.
    replace (length (tp0 :: rest) - 1) with (length rest) by (cbn; lia).
    setoid_rewrite (loop_emit stream (tp0 :: rest) rest 1); [|done].
    rewrite emit_app, <- thrown_statements, !bind_assoc.
    etrans; [|symmetry; apply bind_assoc].
    apply mbind_proper; [intros _|done].
    etrans; [apply bind_assoc|]. apply mbind_proper; [intros _|done].
    etrans; [apply bind_assoc|]. etrans; [|apply emit_ret].
    apply mbind_proper; [by intros _ m|done].
Qed.


(** ** The insertions spell the report *)

Lemma cat_thrown_chunks (kind : string) (tp : Tracepoint) :
  Str.cat (thrown_chunks kind tp) = report_entry kind 0 tp.
Proof.
  unfold thrown_chunks, report_entry. cbn [Str.cat].
  by rewrite !StrFacts.app_assoc, StrFacts.app_nil_r.
Qed.

Lemma cat_rethrown_chunks (kind : string) (j : nat) (tp : Tracepoint) :
  Str.cat (rethrown_chunks (S j) tp) = report_entry kind (S j) tp.
Proof.
  unfold rethrown_chunks, report_entry. cbn [Str.cat].
  by rewrite !StrFacts.app_assoc, StrFacts.app_nil_r.
Qed.

Lemma cat_loop_chunks (kind : string) (l : Traceback) (j : nat)
    (g : nat → Tracepoint → string) :
  (∀ k tp, g k tp = report_entry kind (S j + k) tp) →
  Str.cat (loop_chunks (S j) l) = Str.cat (imap g l).
Proof.
  revert j g. induction l as [|tp l IH]; intros j g Hg; [done|].
  cbn [loop_chunks imap Str.cat].
  rewrite StrFacts.cat_app, (cat_rethrown_chunks kind), Hg, Nat.add_0_r.
  f_equal. apply IH. intros k tp'. unfold compose. rewrite Hg.
  f_equal. lia.
Qed.

Lemma cat_chunks (e : Exception) :
  Str.cat (chunks e) = report (_type e) (_traceback e).
Proof.
  unfold chunks, report. destruct (_traceback e) as [|tp0 rest]; [done|].
  cbn [imap Str.cat]. rewrite StrFacts.cat_app, cat_thrown_chunks. f_equal.
  by apply (cat_loop_chunks (_type e)).
Qed.

(** * The claims *)

(** C1. For every Exception with a non-empty traceback, [addToStream] on a
    stream in a good state whose sink accepts the text appends exactly the
    report to that stream and returns the stream: two newline-terminated
    lines per tracepoint in traceback order, "0: <kind> thrown at
    <file>:<line> in <func>" and "0: Message: <message>" for entry 0,
    "i: Rethrown at <file>:<line> in <func>" and "i: Message: <message>" for
    every later entry i. *)
Theorem addToStream_writes_report (m : machine) (this : loc) (stream : sref)
    (e : Exception) (s : ostream) :
  objects m !! this = Some e →
  _traceback e ≠ [] →
  streams m !! stream = Some s →
  failed s = false →
  accepts s (String.length (report (_type e) (_traceback e))) →
  addToStream this stream m =
  (set_streams <[stream := written s (report (_type e) (_traceback e))]> m,
   Ok stream).
Proof.
  intros He _ Hs Hgood Hfit.
  rewrite (addToStream_emit _ _ _ e He), (emit_puts _ _ _ s Hs).
  rewrite <- cat_chunks in *. by rewrite puts_accepted.
Qed.

(** ** Objects *)

Lemma copy_members (e : Exception) :
  {| _type := _type e; _traceback := _traceback e |} = e.
Proof. by destruct e. Qed.

Lemma deref_ok {B} (p : loc) (e : Exception) (f : Exception → M B) (m : machine) :
  objects m !! p = Some e → (deref p ≫= f) m = f e m.
Proof. intros He. unfold mbind, M_bind, deref. by rewrite He. Qed.

Lemma addMessages_run (this : loc) (cs : list context) (m : machine) (e : Exception) :
  objects m !! this = Some e →
  ∃ m',
    addMessages this cs m = (m', Ok ()) ∧
    objects m' !! this =
      Some {| _type := _type e;
              _traceback := _traceback e ++ (context_tracepoint <$> cs) |} ∧
    (∀ p, p ≠ this → objects m' !! p = objects m !! p) ∧
    streams m' = streams m ∧ buffer m' = buffer m.
Proof.
  revert m e. induction cs as [|c cs IH]; intros m e He.
  - exists m. cbn. by rewrite app_nil_r, copy_members.
  - cbn [addMessages]. unfold mbind at 1, M_bind at 1, addMessage.
    rewrite (deref_ok _ e) by done. unfold store.
    set (e1 := {| _type := _type e;
                  _traceback :=
                    push_back (_traceback e)
                      (Tracepoint_ctor (ctx_file c) (ctx_line c)
                         (ctx_func c) (ctx_msg c)) |}).
    destruct (IH (set_objects <[this := e1]> m) e1) as (m' & Hrun & Hthis & Hothers & Hst & Hbuf).
    { cbn. apply lookup_insert_eq. }
    exists m'. split_and!; [done| |..|done|done].
    + rewrite Hthis. unfold e1, push_back. cbn. by rewrite <- app_assoc.
    + intros p Hp. rewrite Hothers by done. cbn. by rewrite lookup_insert_ne.
Qed.

(** C2. For all constructor inputs the constructed Exception's traceback is
    exactly one Tracepoint holding the given file, line, function and message,
    and [getType] returns the given type. *)
Theorem ctor_traceback_and_type (m : machine) (this : loc) (type file : string)
    (line : Z) (func message : string) :
  ∃ m',
    Exception_ctor this type file line func message m = (m', Ok ()) ∧
    getTraceback this m' =
      (m', Ok [{| _file := file; _line := line;
                  _func := func; _msg := message |}]) ∧
    getType this m' = (m', Ok type).
Proof.
  eexists. split; [reflexivity|].
  set (e0 := {| _type := type; _traceback := _ |}).
  unfold getTraceback, getType.
  split; by rewrite (deref_ok _ e0) by (cbn; apply lookup_insert_eq).
Qed.

(** C3. After the constructor and any [N] calls of [addMessage] on the
    Exception, [getTraceback] returns the original entry followed by one entry
    per call in call order, so [N + 1] entries; the traceback after the first
    [k] calls is the first [k + 1] entries of the final one, and [getType]
    still returns the constructor's type. *)
Theorem addMessage_append_only (m : machine) (this : loc) (type file : string)
    (line : Z) (func message : string) (cs : list context) :
  ∃ m0 m' tb,
    Exception_ctor this type file line func message m = (m0, Ok ()) ∧
    addMessages this cs m0 = (m', Ok ()) ∧
    getTraceback this m' = (m', Ok tb) ∧
    tb = Tracepoint_ctor file line func message :: (context_tracepoint <$> cs) ∧
    length tb = length cs + 1 ∧
    getType this m' = (m', Ok type) ∧
    ∀ k, ∃ mk,
      addMessages this (take k cs) m0 = (mk, Ok ()) ∧
      getTraceback this mk = (mk, Ok (take (S k) tb)).
Proof.
  set (e0 := {| _type := type;
                _traceback := [Tracepoint_ctor file line func message] |}).
  set (m0 := set_objects <[this := e0]> m).
  assert (objects m0 !! this = Some e0) as He0 by (cbn; apply lookup_insert_eq).
  destruct (addMessages_run this cs m0 e0 He0) as (m' & Hrun & Hthis & _).
  exists m0, m', (Tracepoint_ctor file line func message
                  :: (context_tracepoint <$> cs)).
  split_and!; try done.
  - unfold getTraceback. by rewrite (deref_ok _ _ _ _ Hthis).
  - cbn. rewrite length_fmap. lia.
  - unfold getType. by rewrite (deref_ok _ _ _ _ Hthis).
  - intros k.
    destruct (addMessages_run this (take k cs) m0 e0 He0) as (mk & Hk & Hobj & _).
    exists mk. split; [done|]. unfold getTraceback.
    rewrite (deref_ok _ _ _ _ Hobj). cbn. by rewrite fmap_take.
Qed.

(** C4. [clone] returns a new Exception, at an address that held no object,
    whose type and traceback equal the source's; later [addMessage] calls on
    the original leave the copy as it was, and later [addMessage] calls on the
    copy leave the original as it was. *)
Theorem clone_independent (m : machine) (this : loc) (e : Exception) :
  objects m !! this = Some e →
  ∃ m' p,
    clone this m = (m', Ok p) ∧
    p ≠ this ∧ objects m !! p = None ∧
    objects m' !! p = Some e ∧ objects m' !! this = Some e ∧
    (∀ cs, ∃ m'', addMessages this cs m' = (m'', Ok ()) ∧
                  objects m'' !! p = Some e) ∧
    (∀ cs, ∃ m'', addMessages p cs m' = (m'', Ok ()) ∧
                  objects m'' !! this = Some e).
Proof.
  intros He. set (p := fresh (dom (objects m))).
  assert (objects m !! p = None) as Hp.
  { apply not_elem_of_dom, is_fresh. }
  assert (p ≠ this) as Hne by congruence.
  set (m' := set_objects <[p := e]> m).
  assert (objects m' !! p = Some e) as Hcopy by (cbn; apply lookup_insert_eq).
  assert (objects m' !! this = Some e) as Horig.
  { cbn. by rewrite lookup_insert_ne. }
  exists m', p. split_and!; try done.
  - unfold clone. rewrite (deref_ok _ e) by done.
    unfold mbind, M_bind, new_, Exception_copy_ctor, store. cbn.
    fold p. by rewrite copy_members.
  - intros cs.
    destruct (addMessages_run this cs m' e Horig) as (m'' & Hrun & _ & Hothers & _).
    exists m''. split; [done|]. by rewrite Hothers.
  - intros cs.
    destruct (addMessages_run p cs m' e Hcopy) as (m'' & Hrun & _ & Hothers & _).
    exists m''. split; [done|]. by rewrite Hothers.
Qed.

(** C8. For an Exception whose traceback is empty, [addToStream] writes
    nothing: it returns the stream it was given and leaves every stream, and
    the machine as a whole, as it was, whatever state the stream is in. *)
Theorem addToStream_empty_traceback (m : machine) (this : loc) (stream : sref)
    (e : Exception) :
  objects m !! this = Some e →
  _traceback e = [] →
  addToStream this stream m = (m, Ok stream).
Proof.
  intros He Htb. rewrite (addToStream_emit _ _ _ e He).
  unfold chunks. by rewrite Htb.
Qed.

(** C10. On every machine, stream and Exception, [operator<<] does exactly
    what [addToStream] does on that stream (the same characters written, the
    same outcome), and when it returns, it returns the reference to the stream
    it was given. *)
Theorem operator_shl_is_addToStream (m : machine) (stream : sref) (e : loc) :
  operator_shl stream e m = addToStream e stream m ∧
  ∀ m' r, operator_shl stream e m = (m', Ok r) → r = stream.
Proof.
  split; [done|]. intros m' r. unfold operator_shl, addToStream.
  unfold mbind at 1, M_bind at 1.
  destruct (deref e m) as [m1 [x| |]]; [|done..].
  unfold mbind, M_bind.
  match goal with |- context [match ?c with _ => _ end] =>
    destruct c as [m2 [[]| |]] end; [|done..].
  unfold mret, M_ret. congruence.
Qed.

(** ** What a run of insertions can do to a stream *)

Lemma take_app_le (n : nat) (x y : string) :
  n ≤ String.length x → Str.take n (x +:+ y) = Str.take n x.
Proof.
  revert x. induction n as [|n IH]; intros [|c x] Hn; cbn in *; try done.
  - lia.
  - rewrite StrFacts.app_cons. cbn. rewrite IH; [done|lia].
Qed.

Lemma take_app_ge (n : nat) (x y : string) :
  String.length x ≤ n →
  Str.take n (x +:+ y) = x +:+ Str.take (n - String.length x) y.
Proof.
  revert n. induction x as [|c x IH]; intros n Hn.
  - cbn. by rewrite Nat.sub_0_r.
  - destruct n as [|n]; cbn in Hn; [lia|].
    rewrite !StrFacts.app_cons. cbn. rewrite IH; [done|lia].
Qed.

Lemma take_all (n : nat) (x : string) :
  String.length x ≤ n → Str.take n x = x.
Proof.
  revert n. induction x as [|c x IH]; intros [|n] Hn; cbn in *; try done.
  - lia.
  - rewrite IH; [done|lia].
Qed.

Lemma set_streams_insert_id (stream : sref) (s : ostream) (m : machine) :
  streams m !! stream = Some s → set_streams <[stream := s]> m = m.
Proof.
  intros Hs. destruct m as [o st b]. unfold set_streams. cbn in *.
  by rewrite insert_id.
Qed.

Lemma puts_failed (xs : list string) (s : ostream) :
  failed s = true → (puts xs s).1 = s.
Proof.
  unfold failed. intros Hf. induction xs as [|x xs IH]; [done|]. cbn.
  unfold put. destruct (state s); [done| |]; [done|].
  by destruct (exceptions s).
Qed.

(** A stream failed without [badbit] refuses every insertion silently. *)
Lemma puts_ignored (xs : list string) (s : ostream) :
  state s = is_failed → puts xs s = (s, None).
Proof.
  intros Hf. induction xs as [|x xs IH]; [done|]. cbn. unfold put.
  by rewrite Hf.
Qed.

(** A stream with [badbit] set refuses every insertion, and the first one
    raises when the mask says so. *)
Lemma puts_refused (xs : list string) (s : ostream) :
  state s = is_bad → xs ≠ [] →
  puts xs s = (s, if exceptions s then Some ios_failure else None).
Proof.
  intros Hf Hxs. destruct (exceptions s) eqn:Hex.
  - destruct xs as [|x xs]; [done|]. cbn. unfold put. by rewrite Hf, Hex.
  - rewrite (surjective_pairing (puts xs s)).
    rewrite puts_failed, puts_quiet; [done..|]. unfold failed. by rewrite Hf.
Qed.

(** A sink with less room than the run needs takes the first characters of
    the run, as many as it has room for. *)
Lemma puts_overflow (xs : list string) (s : ostream) (n : nat) :
  failed s = false → room s = Some n → n < String.length (Str.cat xs) →
  puts xs s =
  ({| text := text s +:+ Str.take n (Str.cat xs); room := Some 0;
      state := is_bad; exceptions := exceptions s |},
   if exceptions s then Some ios_failure else None).
Proof.
  revert s n. induction xs as [|x xs IH]; intros s n Hgood Hroom Hlt.
  { cbn in Hlt. lia. }
  cbn [puts Str.cat] in *. rewrite StrFacts.length_app in Hlt.
  unfold put. apply failed_false in Hgood as Hstate.
  rewrite Hstate, Hroom. case_decide as Hx.
  - rewrite (IH _ (n - String.length x)); cbn; [|done|done|lia].
    by rewrite take_app_ge, StrFacts.app_assoc.
  - rewrite take_app_le by lia.
    destruct (exceptions s) eqn:Hex; [done|].
    rewrite (surjective_pairing (puts xs _)).
    by rewrite puts_failed, puts_quiet.
Qed.

Lemma chunks_nonempty (e : Exception) : _traceback e ≠ [] → chunks e ≠ [].
Proof. unfold chunks. by destruct (_traceback e). Qed.

Lemma puts_prefix (xs : list string) (s : ostream) :
  ∃ w rest, Str.cat xs = w +:+ rest ∧ text (puts xs s).1 = text s +:+ w.
Proof.
  revert s. induction xs as [|x xs IH]; intros s.
  { exists "", "". split; [reflexivity|]. cbn. by rewrite StrFacts.app_nil_r. }
  destruct (failed s) eqn:Hf.
  { exists "", (Str.cat (x :: xs)).
    split; [reflexivity|]. by rewrite puts_failed, StrFacts.app_nil_r. }
  cbn [puts]. unfold put. apply failed_false in Hf as Hstate. rewrite Hstate.
  destruct (room s) as [n|]; [case_decide|].
  - destruct (IH {| text := text s +:+ x; room := Some (n - String.length x);
                    state := is_good; exceptions := exceptions s |})
      as (w & rest & Hcat & Htext).
    exists (x +:+ w), rest. cbn [Str.cat]. rewrite Htext, Hcat. cbn.
    by rewrite !StrFacts.app_assoc.
  - exists (Str.take n x), (Str.drop n x +:+ Str.cat xs). split.
    { cbn [Str.cat]. by rewrite <- StrFacts.app_assoc, StrFacts.take_drop. }
    destruct (exceptions s); [done|]. by rewrite puts_failed.
  - destruct (IH {| text := text s +:+ x; room := None;
                    state := is_good; exceptions := exceptions s |})
      as (w & rest & Hcat & Htext).
    exists (x +:+ w), rest. cbn [Str.cat]. rewrite Htext, Hcat. cbn.
    by rewrite !StrFacts.app_assoc.
Qed.

(** C6, as stated, fails: on a stream that raises when its sink fails,
    [addToStream] leaves by [std::ios_base::failure] after writing four
    characters of the report; it neither returns nor writes the type alone. *)
Lemma addToStream_raises :
  ∃ m', addToStream 1 7 full_sink_machine = (m', Throw ios_failure) ∧
        text <$> streams m' !! 7 = Some "0: E".
Proof. eexists. split; [vm_compute; reflexivity|]. vm_compute. reflexivity. Qed.

(** C6, amended.  [addToStream] changes nothing but the stream it is given,
    and it has no handler and no fallback of its own.  For an empty traceback
    it does nothing.  Otherwise, to a stream in a good state it appends the
    whole report when the sink has room for it, and else the first characters
    of the report, as many as there is room for, which leaves [badbit] set:
    then, and when [badbit] was set beforehand (nothing is written),
    [std::ios_base::failure] leaves [addToStream] if the [exceptions()] mask
    is set, and the stream is returned if the mask is clear.  To a stream
    failed without [badbit] nothing is written and the stream is returned.
    The type alone is never written in place of the report. *)
Theorem addToStream_no_handler (m : machine) (this : loc) (stream : sref)
    (e : Exception) (s : ostream) :
  objects m !! this = Some e →
  streams m !! stream = Some s →
  addToStream this stream m =
  let rep := report (_type e) (_traceback e) in
  let leave := if exceptions s then Throw ios_failure else Ok stream in
  if decide (_traceback e = []) then (m, Ok stream)
  else
    match state s with
    | is_good =>
        match room s with
        | Some n =>
            if decide (String.length rep ≤ n)
            then (set_streams <[stream := written s rep]> m, Ok stream)
            else (set_streams
                    <[stream := {| text := text s +:+ Str.take n rep;
                                   room := Some 0; state := is_bad;
                                   exceptions := exceptions s |}]> m,
                  leave)
        | None => (set_streams <[stream := written s rep]> m, Ok stream)
        end
    | is_failed => (m, Ok stream)
    | is_bad => (m, leave)
    end.
Proof.
  intros He Hs. cbn zeta. case_decide as Htb.
  { rewrite (addToStream_emit _ _ _ e He). unfold chunks. by rewrite Htb. }
  rewrite (addToStream_emit _ _ _ e He), (emit_puts _ _ _ s Hs).
  rewrite <- cat_chunks. destruct (state s) eqn:Hstate.
  - assert (failed s = false) as Hgood by by apply failed_false.
    destruct (room s) as [n|] eqn:Hroom; [case_decide as Hfit|].
    + rewrite puts_accepted; [done..|]. unfold accepts. by rewrite Hroom.
    + rewrite (puts_overflow _ _ n) by (done || lia).
      cbn. by destruct (exceptions s).
    + rewrite puts_accepted; [done..|]. unfold accepts. by rewrite Hroom.
  - rewrite puts_ignored by done. cbn. by rewrite set_streams_insert_id.
  - rewrite puts_refused by auto using chunks_nonempty.
    cbn. rewrite set_streams_insert_id by done. by destruct (exceptions s).
Qed.

(** ** [what] *)

Lemma what_try_run (rt : runtime) (this : loc) (m : machine) (e : Exception) :
  objects m !! this = Some e →
  what_try rt this m =
  if str_copies rt then (set_buffer (rendered rt e) m, Ok buffer_c_str)
  else (m, Throw bad_alloc).
Proof.
  intros He. unfold what_try, with_ostringstream.
  set (s := fresh (dom (streams m))).
  assert (streams m !! s = None) as Hs by apply not_elem_of_dom, is_fresh.
  set (os := ostringstream_ctor (sstream_cap rt)).
  set (m1 := set_streams <[s := os]> m).
  unfold mbind at 1, M_bind at 1.
  rewrite (addToStream_emit _ _ m1 e) by done.
  rewrite (emit_puts _ _ m1 os) by (cbn; apply lookup_insert_eq).
  rewrite puts_quiet by done.
  unfold mbind at 1, M_bind at 1, str. cbn. rewrite lookup_insert_eq.
  destruct m as [o st b]. unfold set_streams, set_buffer, rendered. cbn in *.
  rewrite insert_insert_eq.
  destruct (str_copies rt);
    unfold mbind, M_bind, assign_buffer, mret, M_ret, set_buffer; cbn;
    by rewrite delete_insert_eq, delete_id.
Qed.

Lemma has_nul_app (x y : string) :
  Str.has_nul (x +:+ y) = Str.has_nul x || Str.has_nul y.
Proof.
  induction x as [|c x IH]; [done|]. rewrite StrFacts.app_cons. cbn.
  by case_decide.
Qed.

Lemma until_nul_id (x : string) : Str.has_nul x = false → Str.until_nul x = x.
Proof.
  induction x as [|c x IH]; [done|]. cbn. case_decide; [done|].
  intros Hx. by rewrite IH.
Qed.

Lemma has_nul_pretty_N_go (x : N) (s : string) :
  Str.has_nul (pretty_N_go x s) = Str.has_nul s.
Proof.
  revert s. induction (N.lt_wf_0 x) as [x _ IH]; intros s.
  destruct (decide (x = 0)%N) as [->|Hx]; [by rewrite pretty_N_go_0|].
  rewrite pretty_N_go_step by lia. rewrite IH.
  - cbn. unfold pretty_N_char. by repeat case_match.
  - apply N.div_lt; lia.
Qed.

Lemma has_nul_pretty_N (x : N) : Str.has_nul (pretty x) = false.
Proof.
  unfold pretty, pretty_N. case_decide; [done|].
  by rewrite has_nul_pretty_N_go.
Qed.

Lemma has_nul_pretty_nat (i : nat) : Str.has_nul (pretty i) = false.
Proof. apply has_nul_pretty_N. Qed.

Lemma has_nul_pretty_Z (z : Z) : Str.has_nul (pretty z) = false.
Proof.
  destruct z as [|p|p]; [done|apply has_nul_pretty_N|].
  unfold pretty, pretty_Z. rewrite has_nul_app.
  change (pretty p) with (pretty (N.pos p)). by rewrite has_nul_pretty_N.
Qed.

Lemma has_nul_report_entry (kind : string) (i : nat) (tp : Tracepoint) :
  Str.has_nul kind = false → nul_free tp →
  Str.has_nul (report_entry kind i tp) = false.
Proof.
  intros Hk (Hfile & Hfunc & Hmsg). unfold report_entry.
  destruct i; rewrite !has_nul_app, ?has_nul_pretty_nat, has_nul_pretty_Z,
    ?Hk, Hfile, Hfunc, Hmsg; done.
Qed.

Lemma has_nul_cat_imap (g : nat → Tracepoint → string) (tb : Traceback) :
  (∀ k tp, nul_free tp → Str.has_nul (g k tp) = false) →
  Forall nul_free tb →
  Str.has_nul (Str.cat (imap g tb)) = false.
Proof.
  intros Hg Htb. revert g Hg. induction Htb as [|tp tb Htp _ IH]; intros g Hg.
  - done.
  - cbn [imap Str.cat]. rewrite has_nul_app, Hg by done.
    apply IH. intros k tp'. apply Hg.
Qed.

Lemma has_nul_report (kind : string) (tb : Traceback) :
  Str.has_nul kind = false → Forall nul_free tb →
  Str.has_nul (report kind tb) = false.
Proof.
  intros Hk Htb. apply has_nul_cat_imap; [|done].
  intros k tp. by apply has_nul_report_entry.
Qed.

Lemma rendered_prefix (rt : runtime) (e : Exception) :
  ∃ rest, report (_type e) (_traceback e) = rendered rt e +:+ rest.
Proof.
  destruct (puts_prefix (chunks e) (ostringstream_ctor (sstream_cap rt)))
    as (w & rest & Hcat & Htext).
  exists rest. unfold rendered. rewrite Htext, <- cat_chunks. done.
Qed.

Lemma rendered_unbounded (rt : runtime) (e : Exception) :
  sstream_cap rt = None → rendered rt e = report (_type e) (_traceback e).
Proof.
  intros Hcap. unfold rendered. rewrite puts_accepted.
  - cbn. by rewrite cat_chunks.
  - done.
  - unfold accepts. cbn. by rewrite Hcap.
Qed.

Lemma rendered_fitted (rt : runtime) (e : Exception) :
  rendered rt e = fitted (sstream_cap rt) (report (_type e) (_traceback e)).
Proof.
  unfold rendered, fitted. rewrite <- cat_chunks.
  destruct (sstream_cap rt) as [n|] eqn:Hcap.
  - destruct (decide (String.length (Str.cat (chunks e)) ≤ n)) as [Hfit|Hfit].
    + rewrite puts_accepted; [|done|done]. cbn. by rewrite take_all.
    + by rewrite (puts_overflow _ _ n) by (done || lia).
  - by rewrite puts_accepted.
Qed.

Lemma what_run (rt : runtime) (this : loc) (m : machine) (e : Exception) :
  objects m !! this = Some e →
  what rt this m =
  if str_copies rt then (set_buffer (rendered rt e) m, Ok buffer_c_str)
  else (m, Ok (type_name (_type e))).
Proof.
  intros He. unfold what, try_catch. rewrite (what_try_run _ _ _ e He).
  destruct (str_copies rt); [done|].
  unfold what_catch. by rewrite (deref_ok _ e).
Qed.

(** C5, as stated, fails: for a message that holds a NUL, [addToStream]
    writes all 44 characters of the report to an in-memory stream, and the
    C string at the pointer [what] returns ends before the NUL, after 41. *)
Lemma what_cut_at_nul :
  ∃ m' p mr o sr,
    what plenty 1 split_machine = (m', Ok p) ∧
    addToStream 1 9
      (set_streams <[9 := ostringstream_ctor (sstream_cap plenty)]>
         split_machine) = (mr, o) ∧
    streams mr !! 9 = Some sr ∧
    String.length (text sr) = 44 ∧
    String.length (c_string m' p) = 41 ∧
    c_string m' p ≠ text sr.
Proof.
  eexists _, _, _, _, _. split_and!; [by vm_compute..|].
  intros Heq. apply (f_equal String.length) in Heq. by vm_compute in Heq.
Qed.

(** C5, amended.  When the [try] block of [what] completes ([s.str()] gets
    its copy), the C string at the pointer [what] returns is the text that
    [addToStream] writes, for the same Exception, to an in-memory stream as
    [std::ostringstream s;] constructs it, up to the first NUL of that text;
    the two are equal whenever that text holds no NUL.  When moreover the
    stream's buffer can grow without limit and neither the type name nor a
    file name, function name or message holds a NUL, it is the report. *)
Theorem what_is_rendered_report (rt : runtime) (m : machine) (this : loc)
    (e : Exception) (r : sref) :
  objects m !! this = Some e →
  str_copies rt = true →
  ∃ m' p mr o sr,
    what rt this m = (m', Ok p) ∧
    addToStream this r
      (set_streams <[r := ostringstream_ctor (sstream_cap rt)]> m) = (mr, o) ∧
    streams mr !! r = Some sr ∧
    c_string m' p = Str.until_nul (text sr) ∧
    (Str.has_nul (text sr) = false → c_string m' p = text sr) ∧
    (sstream_cap rt = None → Str.has_nul (_type e) = false →
     Forall nul_free (_traceback e) →
     c_string m' p = report (_type e) (_traceback e)).
Proof.
  intros He Hcopy.
  set (os := ostringstream_ctor (sstream_cap rt)).
  set (mi := set_streams <[r := os]> m).
  exists (set_buffer (rendered rt e) m), buffer_c_str,
    (set_streams <[r := (puts (chunks e) os).1]> mi), (Ok r),
    (puts (chunks e) os).1.
  split_and!.
  - by rewrite (what_run _ _ _ e He), Hcopy.
  - rewrite (addToStream_emit _ _ mi e) by done.
    rewrite (emit_puts _ _ mi os) by (cbn; apply lookup_insert_eq).
    by rewrite puts_quiet.
  - cbn. apply lookup_insert_eq.
  - done.
  - intros Hnul. cbn. by apply until_nul_id.
  - intros Hcap Hk Htb. cbn. rewrite rendered_unbounded by done.
    by apply until_nul_id, has_nul_report.
Qed.

(** C7, as stated, fails: when the string stream of [what] cannot grow past
    fifteen characters, it fails while the report is written, nothing is
    raised, and [what] returns the fifteen characters written, not the type
    name. *)
Lemma what_returns_truncated_report :
  ∃ m' p mr o sr,
    what cramped 2 pair_machine = (m', Ok p) ∧
    c_string m' p = "0: IoError thro" ∧
    c_string m' p ≠ _type crash ∧
    addToStream 2 9
      (set_streams <[9 := ostringstream_ctor (sstream_cap cramped)]>
         pair_machine) = (mr, o) ∧
    streams mr !! 9 = Some sr ∧
    failed sr = true.
Proof. eexists _, _, _, _, _. split_and!; by vm_compute. Qed.

(** C7, amended.  [what] never raises.  When an exception is raised inside
    its [try] block, which is when [s.str()] cannot make its copy, it returns
    [_type], whose characters are the bare type name, and changes nothing.
    Otherwise it stores in the buffer what the string stream holds and returns
    a pointer to it: the report, or, when the string stream could not grow to
    hold the report, the leading part of the report that fitted; the failure
    of the string stream raises nothing and is not answered by the type
    name. *)
Theorem what_never_raises (rt : runtime) (m : machine) (this : loc)
    (e : Exception) :
  objects m !! this = Some e →
  what rt this m =
    (if str_copies rt
     then (set_buffer
             (fitted (sstream_cap rt) (report (_type e) (_traceback e))) m,
           Ok buffer_c_str)
     else (m, Ok (type_name (_type e)))) ∧
  ((∃ m1 x, what_try rt this m = (m1, Throw x)) ↔ str_copies rt = false) ∧
  c_string m (type_name (_type e)) = _type e.
Proof.
  intros He. split_and!.
  - by rewrite (what_run _ _ _ e He), rendered_fitted.
  - rewrite (what_try_run _ _ _ e He). destruct (str_copies rt).
    + split; [by intros (m1 & x & ?)|done].
    + split; [done|]. intros _. by eexists _, _.
  - done.
Qed.

(** [what] always returns: it has the [throw()] specification. *)
Lemma what_returns (rt : runtime) (m : machine) (this : loc) (e : Exception) :
  objects m !! this = Some e → ∃ m' p, what rt this m = (m', Ok p).
Proof.
  intros He. unfold what, try_catch. rewrite (what_try_run _ _ _ e He).
  destruct (str_copies rt); [by eexists _, _|].
  unfold what_catch. rewrite (deref_ok _ e) by done. by eexists _, _.
Qed.

(** ** Relations every call preserves *)

Section preserves.
Context (R : relation machine) `{!PreOrder R}.
Context (R_streams : ∀ f m, R m (set_streams f m)).
Context (R_buffer : ∀ b m, R m (set_buffer b m)).

Lemma preserves_ret {A} (a : A) : preserves R (mret a).
Proof. by intros m. Qed.

Lemma preserves_bind {A B} (c : M A) (f : A → M B) :
  preserves R c → (∀ a, preserves R (f a)) → preserves R (c ≫= f).
Proof.
  intros Hc Hf m. unfold mbind, M_bind. specialize (Hc m).
  destruct (c m) as [m' [a| |]]; [|done..].
  etrans; [done|]. apply Hf.
Qed.

Lemma preserves_try_catch {A} (body handler : M A) :
  preserves R body → preserves R handler → preserves R (try_catch body handler).
Proof.
  intros Hb Hh m. unfold try_catch. specialize (Hb m).
  destruct (body m) as [m' [a| |]]; [done| |done].
  etrans; [done|]. apply Hh.
Qed.

Lemma preserves_deref (p : loc) : preserves R (deref p).
Proof. intros m. unfold deref. by destruct (objects m !! p). Qed.

Lemma preserves_at (v : Traceback) (i : nat) : preserves R (at_ v i).
Proof. intros m. unfold at_. by destruct (v !! i). Qed.

Lemma preserves_insert_text (stream : sref) (x : string) :
  preserves R (insert_text stream x).
Proof.
  intros m. unfold insert_text. destruct (streams m !! stream) as [s|]; [|done].
  destruct (put x s) as [s' r]. apply R_streams.
Qed.

Lemma preserves_shl `{Insertable A} (c : M sref) (x : A) :
  preserves R c → preserves R (c << x).
Proof.
  intros Hc. apply preserves_bind; [done|].
  intros stream. apply preserves_insert_text.
Qed.

Lemma preserves_for_from (i n : nat) (body : nat → M unit) :
  (∀ k, preserves R (body k)) → preserves R (for_from i n body).
Proof.
  intros Hb. revert i. induction n as [|n IH]; intros i.
  - apply preserves_ret.
  - apply preserves_bind; [apply Hb|]. intros _. apply IH.
Qed.

Hint Resolve preserves_ret preserves_bind preserves_try_catch
  preserves_deref preserves_at preserves_insert_text preserves_shl
  preserves_for_from : preserves.

Lemma preserves_addToStream (this : loc) (stream : sref) :
  preserves R (addToStream this stream).
Proof.
  unfold addToStream, for_range. apply preserves_bind; [auto with preserves|].
  intros e. apply preserves_bind; [|auto with preserves].
  case_decide; auto 20 with preserves.
Qed.

Lemma preserves_str (rt : runtime) (s : sref) : preserves R (str rt s).
Proof. intros m. unfold str. by destruct (streams m !! s). Qed.

Lemma preserves_assign_buffer (t : string) : preserves R (assign_buffer t).
Proof. intros m. apply R_buffer. Qed.

Lemma preserves_with_ostringstream {A} (rt : runtime) (block : sref → M A) :
  (∀ s, preserves R (block s)) → preserves R (with_ostringstream rt block).
Proof.
  intros Hb m. unfold with_ostringstream.
  set (s := fresh (dom (streams m))).
  set (m1 := set_streams _ m). specialize (Hb s m1).
  destruct (block s m1) as [m' o]. cbn in *.
  etrans; [apply R_streams|]. etrans; [done|]. apply R_streams.
Qed.

Hint Resolve preserves_addToStream preserves_str preserves_assign_buffer
  preserves_with_ostringstream : preserves.

Lemma preserves_what (rt : runtime) (this : loc) : preserves R (what rt this).
Proof.
  unfold what, what_try, what_catch. auto 20 with preserves.
Qed.

Lemma preserves_getTraceback (this : loc) : preserves R (getTraceback this).
Proof. unfold getTraceback. auto with preserves. Qed.

Lemma preserves_getType (this : loc) : preserves R (getType this).
Proof. unfold getType. auto with preserves. Qed.

Lemma preserves_ctype (this : loc) : preserves R (ctype this).
Proof. unfold ctype. auto with preserves. Qed.

Lemma preserves_operator_shl (stream : sref) (e : loc) :
  preserves R (operator_shl stream e).
Proof. unfold operator_shl. auto with preserves. Qed.
End preserves.

#[global] Instance grows_preorder : PreOrder grows.
Proof.
  split.
  - intros m p e He. exists []. by rewrite app_nil_r, copy_members.
  - intros m1 m2 m3 H12 H23 p e He.
    destruct (H12 p e He) as (s1 & H1). destruct (H23 p _ H1) as (s2 & H2).
    exists (s1 ++ s2). rewrite H2. cbn. by rewrite app_assoc.
Qed.

Lemma grows_set_streams f m : grows m (set_streams f m).
Proof. intros p e He. exists []. by rewrite app_nil_r, copy_members. Qed.

Lemma grows_set_buffer b m : grows m (set_buffer b m).
Proof. intros p e He. exists []. by rewrite app_nil_r, copy_members. Qed.

Lemma grows_addMessage (this : loc) (file : string) (line : Z)
    (func message : string) :
  preserves grows (addMessage this file line func message).
Proof.
  intros m. unfold addMessage, mbind, M_bind, deref, store.
  destruct (objects m !! this) as [e|] eqn:He; [|done]. cbn.
  intros p e' Hp. destruct (decide (p = this)) as [->|Hne].
  - assert (e' = e) as -> by congruence.
    cbn. rewrite lookup_insert_eq. by eexists.
  - cbn. rewrite lookup_insert_ne by done. exists [].
    by rewrite app_nil_r, copy_members.
Qed.

Lemma grows_clone (this : loc) : preserves grows (clone this).
Proof.
  intros m.
  unfold clone, mbind, M_bind, deref, new_, Exception_copy_ctor, store.
  destruct (objects m !! this) as [e|] eqn:He; [|done]. cbn.
  intros p e' Hp. exists []. cbn. rewrite app_nil_r, !copy_members.
  rewrite lookup_insert_ne; [done|]. intros <-.
  pose proof (is_fresh (dom (objects m))) as Hfresh.
  apply not_elem_of_dom in Hfresh. congruence.
Qed.

Lemma grows_run_call (c : call) : preserves grows (run_call c).
Proof.
  pose proof grows_set_streams. pose proof grows_set_buffer.
  destruct c; cbn [run_call];
    auto using grows_addMessage, grows_clone, preserves_bind, preserves_ret,
      preserves_getTraceback, preserves_addToStream, preserves_what,
      preserves_getType, preserves_ctype, preserves_operator_shl
      with typeclass_instances.
Qed.

Lemma grows_after (cs : list call) (m : machine) : grows m (after cs m).
Proof.
  revert m. induction cs as [|c cs IH]; intros m; [done|].
  cbn. etrans; [apply grows_run_call|apply IH].
Qed.

(** C9. After the constructor and any sequence of calls of the public
    operations (on this Exception or any other, with any arguments, however
    each call ends), the Exception's traceback has at least one entry, the
    first being the constructor's; any further sequence of calls leaves all
    of those entries in place, in order, and at most appends to them; the
    type never changes. *)
Theorem traceback_only_grows (m : machine) (this : loc) (type file : string)
    (line : Z) (func message : string) (cs1 cs2 : list call) :
  ∃ m0 rest suffix,
    Exception_ctor this type file line func message m = (m0, Ok ()) ∧
    objects (after cs1 m0) !! this =
      Some {| _type := type;
              _traceback := Tracepoint_ctor file line func message :: rest |} ∧
    0 < length (Tracepoint_ctor file line func message :: rest) ∧
    objects (after cs2 (after cs1 m0)) !! this =
      Some {| _type := type;
              _traceback :=
                (Tracepoint_ctor file line func message :: rest) ++ suffix |}.
Proof.
  set (e0 := {| _type := type;
                _traceback := [Tracepoint_ctor file line func message] |}).
  set (m0 := set_objects <[this := e0]> m).
  assert (objects m0 !! this = Some e0) as He0 by (cbn; apply lookup_insert_eq).
  destruct (grows_after cs1 m0 this e0 He0) as (rest & H1).
  destruct (grows_after cs2 (after cs1 m0) this _ H1) as (suffix & H2).
  exists m0, rest, suffix. split_and!; [done|done|cbn; lia|done].
Qed.

(** * The theorems at concrete machines *)

Lemma addToStream_writes_report_witness :
  addToStream 1 7 memory_machine =
  (set_streams
     <[7 := written (ostringstream_ctor None)
              (report "E" [Tracepoint_ctor "a.cc" 10 "f" "boom"])]>
     memory_machine,
   Ok 7).
Proof.
  apply (addToStream_writes_report memory_machine 1 7 boom
           (ostringstream_ctor None));
    [reflexivity|discriminate|reflexivity|reflexivity|exact I].
Defined.

Lemma clone_independent_witness :
  ∃ m' p,
    clone 1 memory_machine = (m', Ok p) ∧
    p ≠ 1 ∧ objects memory_machine !! p = None ∧
    objects m' !! p = Some boom ∧ objects m' !! 1 = Some boom ∧
    (∀ cs, ∃ m'', addMessages 1 cs m' = (m'', Ok ()) ∧
                  objects m'' !! p = Some boom) ∧
    (∀ cs, ∃ m'', addMessages p cs m' = (m'', Ok ()) ∧
                  objects m'' !! 1 = Some boom).
Proof. apply (clone_independent memory_machine 1 boom). reflexivity. Defined.

Lemma what_is_rendered_report_witness :
  ∃ m' p mr o sr,
    what plenty 1 memory_machine = (m', Ok p) ∧
    addToStream 1 9
      (set_streams <[9 := ostringstream_ctor (sstream_cap plenty)]>
         memory_machine) = (mr, o) ∧
    streams mr !! 9 = Some sr ∧
    c_string m' p = Str.until_nul (text sr) ∧
    (Str.has_nul (text sr) = false → c_string m' p = text sr) ∧
    (sstream_cap plenty = None → Str.has_nul (_type boom) = false →
     Forall nul_free (_traceback boom) →
     c_string m' p = report (_type boom) (_traceback boom)).
Proof.
  apply (what_is_rendered_report plenty memory_machine 1 boom 9);
    reflexivity.
Defined.

Lemma addToStream_no_handler_witness :
  addToStream 1 7 full_sink_machine =
  (set_streams
     <[7 := {| text := "0: E"; room := Some 0; state := is_bad;
               exceptions := true |}]> full_sink_machine,
   Throw ios_failure).
Proof.
  apply (addToStream_no_handler full_sink_machine 1 7 boom full_sink);
    reflexivity.
Defined.

Lemma what_never_raises_witness :
  what exhausted 1 memory_machine = (memory_machine, Ok (type_name "E")) ∧
  ((∃ m1 x, what_try exhausted 1 memory_machine = (m1, Throw x))
   ↔ str_copies exhausted = false) ∧
  c_string memory_machine (type_name "E") = "E".
Proof. apply (what_never_raises exhausted memory_machine 1 boom). reflexivity. Defined.

Lemma addToStream_empty_traceback_witness :
  addToStream 1 7 hollow_machine = (hollow_machine, Ok 7).
Proof.
  apply (addToStream_empty_traceback hollow_machine 1 7 hollow); reflexivity.
Defined.

(** * Further properties of the methods *)

(** ** More on strings *)

Lemma newlines_app (x y : string) :
  newlines (x +:+ y) = newlines x + newlines y.
Proof.
  induction x as [|c x IH]; [done|]. rewrite StrFacts.app_cons. cbn.
  rewrite IH. lia.
Qed.

Lemma newlines_pretty_N_go (x : N) (s : string) :
  newlines (pretty_N_go x s) = newlines s.
Proof.
  revert s. induction (N.lt_wf_0 x) as [x _ IH]; intros s.
  destruct (decide (x = 0)%N) as [->|Hx]; [by rewrite pretty_N_go_0|].
  rewrite pretty_N_go_step by lia. rewrite IH.
  - cbn. unfold pretty_N_char. by repeat case_match.
  - apply N.div_lt; lia.
Qed.

Lemma newlines_pretty_N (x : N) : newlines (pretty x) = 0.
Proof.
  unfold pretty, pretty_N. case_decide; [done|].
  by rewrite newlines_pretty_N_go.
Qed.

Lemma newlines_pretty_nat (i : nat) : newlines (pretty i) = 0.
Proof. apply newlines_pretty_N. Qed.

Lemma newlines_pretty_Z (z : Z) : newlines (pretty z) = 0.
Proof.
  destruct z as [|p|p]; [done|apply newlines_pretty_N|].
  unfold pretty, pretty_Z. rewrite newlines_app.
  change (pretty p) with (pretty (N.pos p)). by rewrite newlines_pretty_N.
Qed.

(** ** More on runs of insertions *)

Lemma addToStream_accepted (m : machine) (this : loc) (stream : sref)
    (e : Exception) (s : ostream) :
  objects m !! this = Some e →
  streams m !! stream = Some s →
  failed s = false →
  accepts s (String.length (report (_type e) (_traceback e))) →
  addToStream this stream m =
  (set_streams <[stream := written s (report (_type e) (_traceback e))]> m,
   Ok stream).
Proof.
  intros He Hs Hgood Hfit.
  rewrite (addToStream_emit _ _ _ e He), (emit_puts _ _ _ s Hs).
  rewrite <- cat_chunks in *. by rewrite puts_accepted.
Qed.

Lemma set_streams_insert_insert (stream : sref) (s1 s2 : ostream) (m : machine) :
  set_streams <[stream := s2]> (set_streams <[stream := s1]> m)
  = set_streams <[stream := s2]> m.
Proof.
  destruct m as [o st b]. unfold set_streams. cbn. by rewrite insert_insert_eq.
Qed.

(** ** More on the report *)

Lemma report_snoc (kind : string) (tb : Traceback) (tp : Tracepoint) :
  report kind (tb ++ [tp]) =
  report kind tb +:+ report_entry kind (length tb) tp.
Proof.
  unfold report. rewrite imap_app, StrFacts.cat_app. cbn.
  by rewrite StrFacts.app_nil_r, Nat.add_0_r.
Qed.

Lemma newlines_report_entry (kind : string) (i : nat) (tp : Tracepoint) :
  newlines kind = 0 → one_line tp →
  newlines (report_entry kind i tp) = 2.
Proof.
  intros Hk (Hfile & Hfunc & Hmsg). unfold report_entry.
  destruct i; rewrite !newlines_app, ?newlines_pretty_nat, newlines_pretty_Z,
    ?Hk, Hfile, Hfunc, Hmsg; done.
Qed.

Lemma newlines_cat_imap (g : nat → Tracepoint → string) (tb : Traceback) :
  (∀ k tp, one_line tp → newlines (g k tp) = 2) →
  Forall one_line tb →
  newlines (Str.cat (imap g tb)) = 2 * length tb.
Proof.
  intros Hg Htb. revert g Hg. induction Htb as [|tp tb Htp _ IH]; intros g Hg.
  - done.
  - cbn [imap Str.cat length]. rewrite newlines_app, Hg by done.
    rewrite IH; [lia|]. intros k tp'. apply Hg.
Qed.

Lemma newlines_report (kind : string) (tb : Traceback) :
  newlines kind = 0 → Forall one_line tb →
  newlines (report kind tb) = 2 * length tb.
Proof.
  intros Hk Htb. apply newlines_cat_imap; [|done].
  intros k tp. by apply newlines_report_entry.
Qed.

(** ** Rendering *)

(** X1. [stream << e1 << e2], on a stream in a good state whose sink accepts
    both texts, appends the report of [e1] and then the report of [e2], and
    evaluates to the same stream: insertions of Exceptions chain. *)
Theorem operator_shl_chains (m : machine) (stream : sref) (e1 e2 : loc)
    (x1 x2 : Exception) (s : ostream) :
  objects m !! e1 = Some x1 →
  objects m !! e2 = Some x2 →
  streams m !! stream = Some s →
  failed s = false →
  accepts s (String.length (report (_type x1) (_traceback x1))
             + String.length (report (_type x2) (_traceback x2))) →
  (r ← operator_shl stream e1; operator_shl r e2) m =
  (set_streams
     <[stream := written s (report (_type x1) (_traceback x1)
                            +:+ report (_type x2) (_traceback x2))]> m,
   Ok stream).
Proof.
  intros H1 H2 Hs Hgood Hfit. unfold operator_shl, mbind, M_bind.
  rewrite (addToStream_accepted m e1 stream x1 s);
    [|done|done|done|by eapply accepts_le; [|done]; lia].
  rewrite (addToStream_accepted _ e2 stream x2
             (written s (report (_type x1) (_traceback x1))));
    [|done|cbn; apply lookup_insert_eq|done|by apply accepts_written].
  by rewrite set_streams_insert_insert, written_app.
Qed.

(** X2. After [addMessage], [addToStream] writes what it would have written
    before, followed by the two lines of the new entry, which carry the
    previous size of the traceback as their index. *)
Theorem addToStream_after_addMessage (m : machine) (this : loc) (stream : sref)
    (e : Exception) (s : ostream) (file : string) (line : Z)
    (func message : string) :
  objects m !! this = Some e →
  streams m !! stream = Some s →
  failed s = false →
  accepts s (String.length
               (report (_type e) (_traceback e)
                +:+ report_entry (_type e) (length (_traceback e))
                      (Tracepoint_ctor file line func message))) →
  ∃ m1,
    addMessage this file line func message m = (m1, Ok ()) ∧
    addToStream this stream m1 =
    (set_streams
       <[stream := written s
                     (report (_type e) (_traceback e)
                      +:+ report_entry (_type e) (length (_traceback e))
                            (Tracepoint_ctor file line func message))]> m1,
     Ok stream).
Proof.
  intros He Hs Hgood Hfit. eexists. split.
  { unfold addMessage. rewrite (deref_ok _ e) by done. reflexivity. }
  set (e1 := {| _type := _type e; _traceback := _ |}).
  rewrite (addToStream_accepted _ this stream e1 s);
    [|cbn; apply lookup_insert_eq|done|done|].
  - unfold e1. cbn [_type _traceback]. unfold push_back.
    by rewrite report_snoc.
  - unfold e1. cbn [_type _traceback]. unfold push_back.
    by rewrite report_snoc.
Qed.

(** X3. When the type name and the file names, function names and messages
    of the traceback hold no newline, [addToStream] adds exactly two lines
    per tracepoint to a stream that accepts the text. *)
Theorem addToStream_two_lines_each (m : machine) (this : loc) (stream : sref)
    (e : Exception) (s : ostream) :
  objects m !! this = Some e →
  streams m !! stream = Some s →
  failed s = false →
  accepts s (String.length (report (_type e) (_traceback e))) →
  newlines (_type e) = 0 →
  Forall one_line (_traceback e) →
  ∃ s',
    addToStream this stream m = (set_streams <[stream := s']> m, Ok stream) ∧
    newlines (text s') = newlines (text s) + 2 * length (_traceback e).
Proof.
  intros He Hs Hgood Hfit Hk Htb. eexists. split.
  { by apply (addToStream_accepted m this stream e s). }
  cbn. by rewrite newlines_app, newlines_report.
Qed.

(** X4. When the sink of a stream in a good state has room for fewer
    characters than the report has, [addToStream] writes the first characters
    of the report, as many as there is room for, and leaves the stream failed;
    it then returns the stream, or leaves by [std::ios_base::failure] if the
    stream raises on failure. *)
Theorem addToStream_truncates (m : machine) (this : loc) (stream : sref)
    (e : Exception) (s : ostream) (n : nat) :
  objects m !! this = Some e →
  streams m !! stream = Some s →
  failed s = false →
  room s = Some n →
  n < String.length (report (_type e) (_traceback e)) →
  addToStream this stream m =
  (set_streams
     <[stream := {| text := text s
                            +:+ Str.take n (report (_type e) (_traceback e));
                    room := Some 0; state := is_bad;
                    exceptions := exceptions s |}]> m,
   if exceptions s then Throw ios_failure else Ok stream).
Proof.
  intros He Hs Hgood Hroom Hlt.
  rewrite (addToStream_emit _ _ _ e He), (emit_puts _ _ _ s Hs).
  rewrite <- cat_chunks in *. rewrite (puts_overflow _ _ n) by done.
  cbn. by destruct (exceptions s).
Qed.

(** X5. On a stream that is not in a good state, [addToStream] of an
    Exception with a non-empty traceback writes nothing: the text of every
    stream, every object and the buffer are as before.  When [badbit] is set
    and the stream raises on failure it leaves by [std::ios_base::failure];
    when the mask is clear, or the stream is failed without [badbit], it
    returns the stream. *)
Theorem addToStream_failed_stream (m : machine) (this : loc) (stream : sref)
    (e : Exception) (s : ostream) :
  objects m !! this = Some e →
  _traceback e ≠ [] →
  streams m !! stream = Some s →
  failed s = true →
  addToStream this stream m =
  (m, match state s with
      | is_bad => if exceptions s then Throw ios_failure else Ok stream
      | _ => Ok stream
      end).
Proof.
  intros He Htb Hs Hf.
  rewrite (addToStream_emit _ _ _ e He), (emit_puts _ _ _ s Hs).
  unfold failed in Hf. destruct (state s) eqn:Hstate; [done| |].
  - rewrite puts_ignored by done. cbn. by rewrite set_streams_insert_id.
  - rewrite puts_refused by auto using chunks_nonempty.
    cbn. rewrite set_streams_insert_id by done. by destruct (exceptions s).
Qed.

(** ** [what] and its buffer *)

(** X6. [what] always returns, and it changes no object and no stream.
    Either it stores the text in the static buffer, the report or a leading
    part of it, and returns a pointer to that buffer; or the copy out of the
    string stream failed, and it returns [_type] and leaves the whole machine,
    the buffer included, as it was. *)
Theorem what_effect (rt : runtime) (m : machine) (this : loc) (e : Exception) :
  objects m !! this = Some e →
  ∃ m' p,
    what rt this m = (m', Ok p) ∧
    objects m' = objects m ∧ streams m' = streams m ∧
    ((str_copies rt = true ∧ p = buffer_c_str ∧
      ∃ rest, report (_type e) (_traceback e) = buffer m' +:+ rest) ∨
     (str_copies rt = false ∧ p = type_name (_type e) ∧ m' = m)).
Proof.
  intros He. rewrite (what_run _ _ _ e He).
  destruct (str_copies rt); eexists _, _; (split; [reflexivity|]).
  - split_and!; [done|done|]. left. split_and!; [done|done|].
    apply rendered_prefix.
  - split_and!; [done|done|]. by right.
Qed.

(** X11. For an Exception whose traceback is empty, [what] returns a pointer
    to the buffer, which then holds the empty string: not the type name. *)
Theorem what_empty_traceback (rt : runtime) (m : machine) (this : loc)
    (e : Exception) :
  objects m !! this = Some e →
  _traceback e = [] →
  str_copies rt = true →
  what rt this m = (set_buffer "" m, Ok buffer_c_str) ∧
  c_string (set_buffer "" m) buffer_c_str = "".
Proof.
  intros He Htb Hc. split; [|done].
  rewrite (what_run _ _ _ e He), Hc. unfold rendered, chunks. by rewrite Htb.
Qed.

(** ** Copies and contexts *)

Lemma clone_run (this : loc) (m : machine) (e : Exception) :
  objects m !! this = Some e →
  clone this m =
  (set_objects <[fresh (dom (objects m)) := e]> m,
   Ok (fresh (dom (objects m)))).
Proof.
  intros He. unfold clone. rewrite (deref_ok _ e) by done.
  unfold mbind, M_bind, new_, Exception_copy_ctor, store. cbn.
  by rewrite copy_members.
Qed.

Lemma fresh_unused (o : gmap loc Exception) : o !! fresh (dom o) = None.
Proof. apply not_elem_of_dom, is_fresh. Qed.

(** X8. [clone] changes nothing but the storage it allocates: every object
    that existed is unchanged, as are the streams and the buffer.  Two
    successive copies of one Exception live at two different addresses, both
    different from the source's, and both hold the source's members. *)
Theorem clone_twice (m : machine) (this : loc) (e : Exception) :
  objects m !! this = Some e →
  ∃ m1 p1 m2 p2,
    clone this m = (m1, Ok p1) ∧
    clone this m1 = (m2, Ok p2) ∧
    p1 ≠ this ∧ p2 ≠ this ∧ p1 ≠ p2 ∧
    objects m2 !! p1 = Some e ∧ objects m2 !! p2 = Some e ∧
    (∀ q x, objects m !! q = Some x → objects m2 !! q = Some x) ∧
    streams m2 = streams m ∧ buffer m2 = buffer m.
Proof.
  intros He.
  set (p1 := fresh (dom (objects m))).
  set (m1 := set_objects <[p1 := e]> m).
  set (p2 := fresh (dom (objects m1))).
  pose proof (fresh_unused (objects m)) as Hp1. fold p1 in Hp1.
  pose proof (fresh_unused (objects m1)) as Hp2. fold p2 in Hp2.
  assert (p1 ≠ this) as Hn1 by congruence.
  assert (objects m1 !! this = Some e) as He1.
  { cbn. by rewrite lookup_insert_ne. }
  assert (objects m1 !! p1 = Some e) as Hc1 by (cbn; apply lookup_insert_eq).
  assert (p2 ≠ this) as Hn2 by congruence.
  assert (p1 ≠ p2) as Hn12 by congruence.
  exists m1, p1, (set_objects <[p2 := e]> m1), p2.
  split_and!; try done.
  - by apply clone_run.
  - by apply clone_run.
  - cbn. by rewrite lookup_insert_ne, lookup_insert_eq.
  - cbn. apply lookup_insert_eq.
  - intros q x Hq.
    assert (q ≠ p1) as Hq1 by congruence.
    assert (objects m1 !! q = Some x) as Hq'.
    { cbn. by rewrite lookup_insert_ne. }
    assert (q ≠ p2) as Hq2 by congruence.
    cbn. by rewrite !lookup_insert_ne.
Qed.

(** X9. A copy made by [clone] renders as the original does: on every
    stream [addToStream] and [operator<<] do to it exactly what they do for
    the original, and [what] returns the same for both. *)
Theorem clone_renders_alike (m : machine) (this : loc) (e : Exception) :
  objects m !! this = Some e →
  ∃ m' p,
    clone this m = (m', Ok p) ∧ p ≠ this ∧
    (∀ stream, addToStream p stream m' = addToStream this stream m') ∧
    (∀ stream, operator_shl stream p m' = operator_shl stream this m') ∧
    (∀ rt, what rt p m' = what rt this m').
Proof.
  intros He.
  set (p := fresh (dom (objects m))).
  pose proof (fresh_unused (objects m)) as Hp. fold p in Hp.
  assert (p ≠ this) as Hne by congruence.
  set (m' := set_objects <[p := e]> m).
  assert (objects m' !! p = Some e) as Hcopy by (cbn; apply lookup_insert_eq).
  assert (objects m' !! this = Some e) as Horig.
  { cbn. by rewrite lookup_insert_ne. }
  exists m', p. split_and!; [by apply clone_run|done|..].
  - intros stream.
    by rewrite (addToStream_emit _ _ _ e Hcopy), (addToStream_emit _ _ _ e Horig).
  - intros stream. unfold operator_shl.
    by rewrite (addToStream_emit _ _ _ e Hcopy), (addToStream_emit _ _ _ e Horig).
  - intros rt. by rewrite (what_run _ _ _ e Hcopy), (what_run _ _ _ e Horig).
Qed.

(** X10. On any Exception object, whatever its traceback, [addMessage]
    returns normally; afterwards [getTraceback] returns the earlier traceback
    with one entry added at the end, holding the four arguments, and [getType]
    returns the earlier type; every other object, every stream and the buffer
    are unchanged. *)
Theorem addMessage_effect (m : machine) (this : loc) (e : Exception)
    (file : string) (line : Z) (func message : string) :
  objects m !! this = Some e →
  ∃ m',
    addMessage this file line func message m = (m', Ok ()) ∧
    getTraceback this m' =
      (m', Ok (_traceback e
               ++ [{| _file := file; _line := line;
                      _func := func; _msg := message |}])) ∧
    getType this m' = (m', Ok (_type e)) ∧
    (∀ q, q ≠ this → objects m' !! q = objects m !! q) ∧
    streams m' = streams m ∧ buffer m' = buffer m.
Proof.
  intros He. eexists. split.
  { unfold addMessage. rewrite (deref_ok _ e) by done. reflexivity. }
  set (e1 := {| _type := _type e; _traceback := _ |}).
  assert (objects (set_objects <[this := e1]> m) !! this = Some e1) as He1.
  { cbn. apply lookup_insert_eq. }
  split_and!; try done.
  - unfold getTraceback. by rewrite (deref_ok _ e1).
  - unfold getType. by rewrite (deref_ok _ e1).
  - intros q Hq. cbn. by rewrite lookup_insert_ne.
Qed.

(** * The further properties at concrete machines *)

Lemma operator_shl_chains_witness :
  (r ← operator_shl 7 1; operator_shl r 2) pair_machine =
  (set_streams
     <[7 := written (ostringstream_ctor None)
              (report (_type boom) (_traceback boom)
               +:+ report (_type crash) (_traceback crash))]> pair_machine,
   Ok 7).
Proof.
  apply (operator_shl_chains pair_machine 7 1 2 boom crash
           (ostringstream_ctor None));
    [reflexivity|reflexivity|reflexivity|reflexivity|exact I].
Defined.

Lemma addToStream_after_addMessage_witness :
  ∃ m1,
    addMessage 1 "b.cc" 20 "g" "context" memory_machine = (m1, Ok ()) ∧
    addToStream 1 7 m1 =
    (set_streams
       <[7 := written (ostringstream_ctor None)
                (report (_type boom) (_traceback boom)
                 +:+ report_entry (_type boom) (length (_traceback boom))
                       (Tracepoint_ctor "b.cc" 20 "g" "context"))]> m1,
     Ok 7).
Proof.
  apply (addToStream_after_addMessage memory_machine 1 7 boom
           (ostringstream_ctor None) "b.cc" 20 "g" "context");
    [reflexivity|reflexivity|reflexivity|exact I].
Defined.

Lemma addToStream_two_lines_each_witness :
  ∃ s',
    addToStream 2 7 pair_machine =
      (set_streams <[7 := s']> pair_machine, Ok 7) ∧
    newlines (text s')
    = newlines (text (ostringstream_ctor None)) + 2 * length (_traceback crash).
Proof.
  apply (addToStream_two_lines_each pair_machine 2 7 crash
           (ostringstream_ctor None));
    [reflexivity|reflexivity|reflexivity|exact I|reflexivity|].
  repeat constructor.
Defined.

Lemma addToStream_truncates_witness :
  addToStream 1 7 full_sink_machine =
  (set_streams
     <[7 := {| text := text full_sink
                       +:+ Str.take 4 (report (_type boom) (_traceback boom));
               room := Some 0; state := is_bad;
               exceptions := exceptions full_sink |}]> full_sink_machine,
   if exceptions full_sink then Throw ios_failure else Ok 7).
Proof.
  apply (addToStream_truncates full_sink_machine 1 7 boom full_sink 4);
    [reflexivity|reflexivity|reflexivity|reflexivity|vm_compute; lia].
Defined.

Lemma addToStream_failed_stream_witness :
  addToStream 1 7 failed_machine = (failed_machine, Throw ios_failure) ∧
  addToStream 1 7 soft_failed_machine = (soft_failed_machine, Ok 7).
Proof.
  split.
  - apply (addToStream_failed_stream failed_machine 1 7 boom failed_stream);
      [reflexivity|discriminate|reflexivity|reflexivity].
  - apply (addToStream_failed_stream soft_failed_machine 1 7 boom
             soft_failed_stream);
      [reflexivity|discriminate|reflexivity|reflexivity].
Defined.

Lemma what_effect_witness :
  ∃ m' p,
    what plenty 1 memory_machine = (m', Ok p) ∧
    objects m' = objects memory_machine ∧
    streams m' = streams memory_machine ∧
    ((str_copies plenty = true ∧ p = buffer_c_str ∧
      ∃ rest, report (_type boom) (_traceback boom) = buffer m' +:+ rest) ∨
     (str_copies plenty = false ∧ p = type_name (_type boom) ∧
      m' = memory_machine)).
Proof. apply (what_effect plenty memory_machine 1 boom). reflexivity. Defined.

Lemma what_empty_traceback_witness :
  what plenty 1 hollow_machine = (set_buffer "" hollow_machine, Ok buffer_c_str) ∧
  c_string (set_buffer "" hollow_machine) buffer_c_str = "".
Proof.
  apply (what_empty_traceback plenty hollow_machine 1 hollow); reflexivity.
Defined.

Lemma clone_twice_witness :
  ∃ m1 p1 m2 p2,
    clone 1 memory_machine = (m1, Ok p1) ∧
    clone 1 m1 = (m2, Ok p2) ∧
    p1 ≠ 1 ∧ p2 ≠ 1 ∧ p1 ≠ p2 ∧
    objects m2 !! p1 = Some boom ∧ objects m2 !! p2 = Some boom ∧
    (∀ q x, objects memory_machine !! q = Some x → objects m2 !! q = Some x) ∧
    streams m2 = streams memory_machine ∧ buffer m2 = buffer memory_machine.
Proof. apply (clone_twice memory_machine 1 boom). reflexivity. Defined.

Lemma clone_renders_alike_witness :
  ∃ m' p,
    clone 1 memory_machine = (m', Ok p) ∧ p ≠ 1 ∧
    (∀ stream, addToStream p stream m' = addToStream 1 stream m') ∧
    (∀ stream, operator_shl stream p m' = operator_shl stream 1 m') ∧
    (∀ rt, what rt p m' = what rt 1 m').
Proof. apply (clone_renders_alike memory_machine 1 boom). reflexivity. Defined.

Lemma addMessage_effect_witness :
  ∃ m',
    addMessage 1 "b.cc" 20 "g" "context" hollow_machine = (m', Ok ()) ∧
    getTraceback 1 m' =
      (m', Ok (_traceback hollow
               ++ [{| _file := "b.cc"; _line := 20;
                      _func := "g"; _msg := "context" |}])) ∧
    getType 1 m' = (m', Ok (_type hollow)) ∧
    (∀ q, q ≠ 1 → objects m' !! q = objects hollow_machine !! q) ∧
    streams m' = streams hollow_machine ∧ buffer m' = buffer hollow_machine.
Proof.
  apply (addMessage_effect hollow_machine 1 hollow "b.cc" 20 "g" "context").
  reflexivity.
Defined.
